(** * PgBouncer instance controller: Paused / Pause / Resume

    Shallow embedding of
    [internal/pgbouncer/management/controller/instance.go].

    The three methods of [pgBouncerInstance] are written as finite
    programs over the primitive effects the Go code performs (calls to the
    connection pool, to the database handle, to the read/write mutex, reads
    and writes of the [paused] field, and the sleeps of the retry helper).
    The programs are then run in two ways: sequentially against an arbitrary
    environment, and interleaved with other callers. *)

From Stdlib Require Import List String ZArith Lia Bool Arith DecimalString.
Import ListNotations.
Open Scope string_scope.
Open Scope list_scope.

Set Implicit Arguments.

(** ** Errors *)

(** Go [error] values, as far as the controller can tell them apart:
    the two sentinels it (or the retry helper) compares against, any other
    base error, and the wrapper built by [fmt.Errorf("<ctx>: %w", err)]. *)
Inductive error : Type :=
| ErrNotExist                                  (* os.ErrNotExist *)
| ErrWaitTimeout                               (* wait.ErrWaitTimeout *)
| ErrOther (msg : string)                      (* any other base error *)
| Errorf_w (ctx : string) (inner : error).     (* fmt.Errorf(ctx ++ ": %w", inner) *)

Fixpoint error_eqb (a b : error) : bool :=
  match a, b with
  | ErrNotExist, ErrNotExist => true
  | ErrWaitTimeout, ErrWaitTimeout => true
  | ErrOther m, ErrOther n => String.eqb m n
  | Errorf_w c i, Errorf_w d j => String.eqb c d && error_eqb i j
  | _, _ => false
  end.

(** [err.Error()] *)
Fixpoint Error (e : error) : string :=
  match e with
  | ErrNotExist => "file does not exist"
  | ErrWaitTimeout => "timed out waiting for the condition"
  | ErrOther m => m
  | Errorf_w c i => (c ++ ": " ++ Error i)%string
  end.

(** [errors.Unwrap] *)
Definition Unwrap (e : error) : option error :=
  match e with
  | Errorf_w _ i => Some i
  | _ => None
  end.

(** [errors.Is]: walks the [Unwrap] chain. *)
Fixpoint errors_Is (e target : error) : bool :=
  error_eqb e target ||
  match e with
  | Errorf_w _ i => errors_Is i target
  | _ => false
  end.

(** ** Effects *)

(** [*sql.DB]: an opaque handle. *)
Definition DB := nat.

(** The primitive effects of the controller; the index is the type of the
    value the effect answers with.  [error] results are [option error],
    [None] being Go's [nil]. *)
Inductive event : Type -> Type :=
| PoolConnection (dbname : string) : event (DB + error)   (* p.pool.Connection(dbname) *)
| DbExec (db : DB) (query : string) : event (option error) (* _, err = db.Exec(query) *)
| Sleep (d : Z) : event unit                               (* time.Sleep *)
| MuRLock : event unit                                     (* p.mu.RLock() *)
| MuRUnlock : event unit                                   (* p.mu.RUnlock() *)
| MuLock : event unit                                      (* p.mu.Lock() *)
| MuUnlock : event unit                                    (* p.mu.Unlock() *)
| LoadPaused : event bool                                  (* read p.paused *)
| StorePaused (b : bool) : event unit.                     (* p.paused = b *)

(** Finite programs over these effects. *)
Inductive prog (R : Type) : Type :=
| Ret (r : R)
| Vis (X : Type) (e : event X) (k : X -> prog R).

Arguments Ret {R} r.
Arguments Vis {R X} e k.

Fixpoint bind {A B : Type} (m : prog A) (f : A -> prog B) : prog B :=
  match m with
  | Ret a => f a
  | Vis e k => Vis e (fun x => bind (k x) f)
  end.

Definition trigger {X : Type} (e : event X) : prog X := Vis e (fun x => Ret x).

Declare Scope prog_scope.
Delimit Scope prog_scope with prog.
Notation "x <- m ;; k" := (bind m (fun x => k))
  (at level 61, m at next level, right associativity) : prog_scope.
Notation "m ;; k" := (bind m (fun _ => k))
  (at level 61, right associativity) : prog_scope.
Open Scope prog_scope.

(** ** k8s.io/client-go/util/retry and k8s.io/apimachinery/pkg/util/wait *)

(** [wait.Backoff].  Durations are nanoseconds.  The [Jitter] field only
    randomises the length of each sleep and is not represented; [Factor] is
    kept for whole factors. *)
Record Backoff : Type := mkBackoff {
  Duration : Z;
  Factor : Z;
  Steps : Z;
  Cap : Z
}.

(** Modelled from the spec: [retry.DefaultBackoff] is declared in
    k8s.io/client-go/util/retry, which is not under src/.  The spec only
    says that the number of attempts is bounded; the values are those of
    the library: four steps, 10ms initial delay, factor 5, no cap. *)
Definition DefaultBackoff : Backoff :=
  {| Duration := 10000000; Factor := 5; Steps := 4; Cap := 0 |}.

(** [Backoff.Step]: the delay to sleep now, and the backoff for the next
    iteration. *)
Definition Backoff_Step (b : Backoff) : Z * Backoff :=
  if (Steps b <? 1)%Z then (Duration b, b)
  else
    let b1 := {| Duration := Duration b; Factor := Factor b;
                 Steps := Steps b - 1; Cap := Cap b |} in
    let b2 :=
      if (Factor b1 =? 0)%Z then b1
      else
        let d := (Duration b1 * Factor b1)%Z in
        if (0 <? Cap b1)%Z && (Cap b1 <? d)%Z
        then {| Duration := Cap b1; Factor := Factor b1; Steps := 0; Cap := Cap b1 |}
        else {| Duration := d; Factor := Factor b1; Steps := Steps b1; Cap := Cap b1 |}
    in (Duration b, b2).

(** Modelled from the spec: [wait.ExponentialBackoff] is not under src/.
    It runs [condition] until it answers [true] or an error, sleeping
    between attempts, for as long as [backoff.Steps > 0]; when the steps run
    out it answers [ErrWaitTimeout].  The condition is a closure: [St] is
    the state it captures.  [fuel] bounds the Go [for] loop; each iteration
    that continues lowers [Steps] by at least one, so [Z.to_nat (Steps b)]
    iterations are all the loop can make. *)
Fixpoint ExponentialBackoff_loop {St : Type} (fuel : nat) (b : Backoff)
    (condition : St -> prog (St * (bool * option error))) (st : St)
    : prog (St * option error) :=
  match fuel with
  | O => Ret (st, Some ErrWaitTimeout)
  | S fuel' =>
      if (0 <? Steps b)%Z then
        r <- condition st ;;
        let '(st', (ok, err)) := r in
        match err with
        | Some _ => Ret (st', err)
        | None =>
            if ok then Ret (st', None)
            else if (Steps b =? 1)%Z then Ret (st', Some ErrWaitTimeout)
            else
              let '(d, b') := Backoff_Step b in
              trigger (Sleep d) ;;
              ExponentialBackoff_loop fuel' b' condition st'
        end
      else Ret (st, Some ErrWaitTimeout)
  end.

Definition ExponentialBackoff {St : Type} (b : Backoff)
    (condition : St -> prog (St * (bool * option error))) (st : St)
    : prog (St * option error) :=
  ExponentialBackoff_loop (Z.to_nat (Steps b)) b condition st.

(** Modelled from the spec: [retry.OnError] is not under src/.  It calls
    [fn] under [wait.ExponentialBackoff]; an error for which [retriable]
    holds is remembered in [lastErr] and the call is tried again, any other
    error ends the loop; when the attempts run out the last remembered
    error is returned. *)
Definition OnError (b : Backoff) (retriable : error -> bool)
    (fn : prog (option error)) : prog (option error) :=
  r <- ExponentialBackoff b
         (fun lastErr : option error =>
            err <- fn ;;
            match err with
            | None => Ret (lastErr, (true, None))
            | Some e =>
                if retriable e then Ret (Some e, (false, None))
                else Ret (lastErr, (false, Some e))
            end)
         None ;;
  let '(lastErr, err) := r in
  match err with
  | Some ErrWaitTimeout => Ret lastErr
  | _ => Ret err
  end.

(** ** The controller *)

(** The retry predicate handed to [retry.OnError] by [Pause]. *)
Definition Pause_retriable (err : error) : bool :=
  if errors_Is err ErrNotExist then true
  else true.

(** [Paused]: read the flag under the read lock.  The deferred [RUnlock]
    runs after the returned value has been read. *)
Definition Paused : prog bool :=
  trigger MuRLock ;;
  b <- trigger LoadPaused ;;
  trigger MuRUnlock ;;
  Ret b.

(** [Pause].  The closure run by [retry.OnError] also stores the result of
    [db.Exec] in the method's [err] variable; that variable is overwritten
    by the result of [retry.OnError] before it is read again. *)
Definition Pause : prog (option error) :=
  r <- trigger (PoolConnection "pgbouncer") ;;
  match r with
  | inr err =>
      Ret (Some (Errorf_w "while connecting to pgbouncer database locally" err))
  | inl db =>
      err <- OnError DefaultBackoff Pause_retriable (trigger (DbExec db "PAUSE")) ;;
      match err with
      | Some e => Ret (Some e)
      | None =>
          trigger MuLock ;;
          trigger (StorePaused true) ;;
          trigger MuUnlock ;;
          Ret None
      end
  end.

(** [Resume]. *)
Definition Resume : prog (option error) :=
  r <- trigger (PoolConnection "pgbouncer") ;;
  match r with
  | inr err =>
      Ret (Some (Errorf_w "while connecting to pgbouncer database locally" err))
  | inl db =>
      err <- trigger (DbExec db "RESUME") ;;
      match err with
      | Some e => Ret (Some (Errorf_w "while resuming instance" e))
      | None =>
          trigger MuLock ;;
          trigger (StorePaused false) ;;
          trigger MuUnlock ;;
          Ret None
      end
  end.

(** ** The instance and its construction *)

(** [sync.RWMutex], as seen by its callers: whether a writer holds it and
    how many readers do. *)
Record RWMutex : Type := mkRWMutex {
  writer : bool;
  readers : nat
}.

(** [pool.ConnectionPool] (package [pkg/management/postgres/pool], not
    under src/): the pool is known by its connection string; what it
    answers is left to the environment, see [connect] below. *)
Record ConnectionPool : Type := mkConnectionPool {
  dsn : string
}.

(** [pool.NewConnectionPool] *)
Definition NewConnectionPool (dsn : string) : ConnectionPool :=
  {| dsn := dsn |}.

Record pgBouncerInstance : Type := mkInstance {
  mu : RWMutex;
  paused : bool;
  pool : ConnectionPool
}.

Definition mu_free (p : pgBouncerInstance) : Prop :=
  writer (mu p) = false /\ readers (mu p) = 0.

Definition set_mu (p : pgBouncerInstance) (m : RWMutex) : pgBouncerInstance :=
  {| mu := m; paused := paused p; pool := pool p |}.

Definition set_paused (p : pgBouncerInstance) (b : bool) : pgBouncerInstance :=
  {| mu := mu p; paused := b; pool := pool p |}.

Section Construction.
(** The constants of package [pkg/specs/pgbouncer], which is not under
    src/. *)
Variable PgBouncerSocketDir : string.
Variable PgBouncerPort : Z.
Variable PgBouncerAdminUser : string.

(** [NewPgBouncerInstance] *)
Definition NewPgBouncerInstance : pgBouncerInstance :=
  let dsn :=
    ("host=" ++ PgBouncerSocketDir ++
     " port=" ++ DecimalString.NilZero.string_of_int (Z.to_int PgBouncerPort) ++
     " user=" ++ PgBouncerAdminUser ++ " sslmode=disable")%string in
  {| mu := {| writer := false; readers := 0 |};
     paused := false;
     pool := NewConnectionPool dsn |}.

End Construction.

(** ** Calls and goroutines *)

Inductive call : Type := CallPaused | CallPause | CallResume.

Inductive result : Type :=
| RBool (b : bool)
| RErr (err : option error).

Definition call_prog (c : call) : prog result :=
  match c with
  | CallPaused => b <- Paused ;; Ret (RBool b)
  | CallPause => e <- Pause ;; Ret (RErr e)
  | CallResume => e <- Resume ;; Ret (RErr e)
  end.

(** The calls one goroutine makes, one after the other. *)
Fixpoint thread_prog (cs : list call) : prog (list result) :=
  match cs with
  | [] => Ret []
  | c :: cs' =>
      r <- call_prog c ;;
      rs <- thread_prog cs' ;;
      Ret (r :: rs)
  end.

(** What a caller holds of the instance's mutex. *)
Inductive mode : Type := Free | HoldR | HoldW.

Definition mode_eqb (a b : mode) : bool :=
  match a, b with
  | Free, Free | HoldR, HoldR | HoldW, HoldW => true
  | _, _ => false
  end.

(** What the caller holds after an effect. *)
Definition next_mode {X : Type} (e : event X) (h : mode) : mode :=
  match e with
  | MuLock => HoldW
  | MuRLock => HoldR
  | MuUnlock | MuRUnlock => Free
  | _ => h
  end.

(** A goroutine: what is left of its program, and what it holds. *)
Record thread : Type := mkThread {
  held : mode;
  code : prog (list result)
}.

Fixpoint upd {A : Type} (i : nat) (x : A) (l : list A) : list A :=
  match l, i with
  | [], _ => []
  | _ :: l', O => x :: l'
  | y :: l', S i' => y :: upd i' x l'
  end.

(** ** Observations *)

(** One performed effect together with its answer. *)
Inductive obs : Type :=
| Obs (X : Type) (e : event X) (x : X).

Arguments Obs {X} e x.

(** The [db.Exec] calls of a trace: handle, query text and answer. *)
Fixpoint exec_calls (t : list obs) : list (DB * string * option error) :=
  match t with
  | [] => []
  | Obs e x :: t' =>
      match e in event T return T -> list (DB * string * option error) with
      | DbExec db q => fun r => (db, q, r) :: exec_calls t'
      | _ => fun _ => exec_calls t'
      end x
  end.

(** The [pool.Connection] calls of a trace. *)
Fixpoint connection_calls (t : list obs) : list (string * (DB + error)) :=
  match t with
  | [] => []
  | Obs e x :: t' =>
      match e in event T return T -> list (string * (DB + error)) with
      | PoolConnection n => fun r => (n, r) :: connection_calls t'
      | _ => fun _ => connection_calls t'
      end x
  end.

Definition is_store {X : Type} (e : event X) : bool :=
  match e with StorePaused _ => true | _ => false end.

Definition is_load {X : Type} (e : event X) : bool :=
  match e with LoadPaused => true | _ => false end.

(** Network effects: what goes to the pool or to pgbouncer, and the
    sleeps in between. *)
Definition is_net {X : Type} (e : event X) : bool :=
  match e with
  | PoolConnection _ | DbExec _ _ | Sleep _ => true
  | _ => false
  end.

Definition is_lock {X : Type} (e : event X) : bool :=
  match e with MuLock => true | _ => false end.

Definition is_unlock {X : Type} (e : event X) : bool :=
  match e with MuUnlock => true | _ => false end.

Definition is_rlock {X : Type} (e : event X) : bool :=
  match e with MuRLock => true | _ => false end.

(** The next effect of the goroutine satisfies [f]. *)
Definition head_is (f : forall X, event X -> bool) (t : thread) : bool :=
  match code t with
  | Vis e _ => f _ e
  | Ret _ => false
  end.

Definition obs_is (f : forall X, event X -> bool) (o : obs) : bool :=
  match o with Obs e _ => f _ e end.

(** The observation is not a write of the flag. *)
Definition no_store (o : obs) : bool := negb (obs_is (@is_store) o).

(** ** Running programs *)

Section Run.
(** The world outside the controller: the connection pool and pgbouncer
    behind it.  [connect] is the pool's [Connection] method and [exec] is
    the handle's [Exec] method, both arbitrary. *)
Variable W : Type.
Variable connect : ConnectionPool -> string -> W -> (DB + error) * W.
Variable exec : DB -> string -> W -> option error * W.

Record Machine : Type := mkMachine {
  inst : pgBouncerInstance;
  world : W;
  trace : list obs
}.

Definition with_inst (m : Machine) (p : pgBouncerInstance) : Machine :=
  {| inst := p; world := world m; trace := trace m |}.

Definition with_world (m : Machine) (w : W) : Machine :=
  {| inst := inst m; world := w; trace := trace m |}.

Definition log (m : Machine) (o : obs) : Machine :=
  {| inst := inst m; world := world m; trace := trace m ++ [o] |}.

(** The effect of one event.  [None]: the caller cannot go on (a lock
    that is not available, or an unlock of a lock that is not held). *)
Definition handle {X : Type} (e : event X) (m : Machine) : option (X * Machine) :=
  match e in event T return option (T * Machine) with
  | PoolConnection dbname =>
      let '(r, w) := connect (pool (inst m)) dbname (world m) in
      Some (r, with_world m w)
  | DbExec db query =>
      let '(r, w) := exec db query (world m) in
      Some (r, with_world m w)
  | Sleep _ => Some (tt, m)
  | MuRLock =>
      if writer (mu (inst m)) then None
      else Some (tt, with_inst m (set_mu (inst m)
                       {| writer := false; readers := S (readers (mu (inst m))) |}))
  | MuRUnlock =>
      match readers (mu (inst m)) with
      | O => None
      | S n => Some (tt, with_inst m (set_mu (inst m)
                           {| writer := writer (mu (inst m)); readers := n |}))
      end
  | MuLock =>
      if writer (mu (inst m)) then None
      else match readers (mu (inst m)) with
           | O => Some (tt, with_inst m (set_mu (inst m)
                              {| writer := true; readers := 0 |}))
           | S _ => None
           end
  | MuUnlock =>
      if writer (mu (inst m))
      then Some (tt, with_inst m (set_mu (inst m)
                       {| writer := false; readers := readers (mu (inst m)) |}))
      else None
  | LoadPaused => Some (paused (inst m), m)
  | StorePaused b => Some (tt, with_inst m (set_paused (inst m) b))
  end.

(** Run a program to its end by a single caller, logging every effect. *)
Fixpoint run {R : Type} (p : prog R) (m : Machine) : option (R * Machine) :=
  match p with
  | Ret r => Some (r, m)
  | Vis e k =>
      match handle e m with
      | Some (x, m') => run (k x) (log m' (Obs e x))
      | None => None
      end
  end.

(** A sequence of calls made one after the other on the instance; the
    history pairs every call with what it returned. *)
Fixpoint run_calls (cs : list call) (m : Machine)
    : option (list (call * result) * Machine) :=
  match cs with
  | [] => Some ([], m)
  | c :: cs' =>
      match run (call_prog c) m with
      | Some (r, m') =>
          match run_calls cs' m' with
          | Some (h, m'') => Some ((c, r) :: h, m'')
          | None => None
          end
      | None => None
      end
  end.

(** *** Several callers at once *)

Record Config : Type := mkConfig {
  shared : Machine;
  threads : list thread
}.

(** Goroutine [i] makes its next effect.  [None]: there is no such
    goroutine, it has returned, or it has to wait.  A read lock waits only
    for a writer that holds the mutex.  Go's [sync.RWMutex] also makes new
    readers wait once a writer has asked for the lock, so it allows fewer
    interleavings than this relation, never more; [gstep] below follows
    it. *)
Definition step (i : nat) (c : Config) : option Config :=
  match nth_error (threads c) i with
  | Some t =>
      match code t with
      | Vis e k =>
          match handle e (shared c) with
          | Some (x, m') =>
              Some {| shared := log m' (Obs e x);
                      threads := upd i {| held := next_mode e (held t);
                                          code := k x |} (threads c) |}
          | None => None
          end
      | Ret _ => None
      end
  | None => None
  end.

(** A schedule: which goroutine moves, step after step. *)
Fixpoint steps (sched : list nat) (c : Config) : option Config :=
  match sched with
  | [] => Some c
  | i :: sched' =>
      match step i c with
      | Some c' => steps sched' c'
      | None => None
      end
  end.

(** Goroutines that are about to start their calls on the instance. *)
Definition init (m : Machine) (callss : list (list call)) : Config :=
  {| shared := m;
     threads := map (fun cs => {| held := Free; code := thread_prog cs |}) callss |}.

(** *** The mutex as [sync.RWMutex] implements it *)

(** Where a goroutine is inside a call of the mutex: not waiting; inside
    [Lock], having taken the writers' mutex and announced itself, waiting
    for the readers that hold the lock to leave; inside [RLock], parked
    behind a writer that has announced itself or holds the lock. *)
Inductive wait : Type := Running | Announced | Parked.

Definition wait_eqb (a b : wait) : bool :=
  match a, b with
  | Running, Running | Announced, Announced | Parked, Parked => true
  | _, _ => false
  end.

Record GoConfig : Type := mkGoConfig {
  base : Config;
  waits : list wait
}.

(** A writer holds the mutex or has announced itself. *)
Definition writer_present (g : GoConfig) : bool :=
  writer (mu (inst (shared (base g)))) || existsb (wait_eqb Announced) (waits g).

(** The goroutines parked in [RLock]. *)
Definition parked_ids (ws : list wait) : list nat :=
  filter (fun j => match nth_error ws j with
                   | Some Parked => true
                   | _ => false
                   end)
         (seq 0 (List.length ws)).

Definition unpark (w : wait) : wait :=
  match w with
  | Parked => Running
  | _ => w
  end.

(** Goroutine [i] moves, with the mutex behaving as Go's does.  [Lock]
    first announces the writer, which only a goroutine can do when no other
    writer is present, and returns once no reader holds the lock.  [RLock]
    parks the reader when a writer is present.  [Unlock] hands the read lock
    to all the parked readers.  Everything else is as in [step]. *)
Definition gstep (i : nat) (g : GoConfig) : option GoConfig :=
  match nth_error (threads (base g)) i, nth_error (waits g) i with
  | Some t, Some Parked => None
  | Some t, Some Announced =>
      match readers (mu (inst (shared (base g)))) with
      | O =>
          match step i (base g) with
          | Some c => Some {| base := c; waits := upd i Running (waits g) |}
          | None => None
          end
      | S _ => None
      end
  | Some t, Some Running =>
      if head_is (@is_lock) t then
        if writer_present g then None
        else Some {| base := base g; waits := upd i Announced (waits g) |}
      else if head_is (@is_rlock) t then
        if writer_present g
        then Some {| base := base g; waits := upd i Parked (waits g) |}
        else match step i (base g) with
             | Some c => Some {| base := c; waits := waits g |}
             | None => None
             end
      else if head_is (@is_unlock) t then
        match step i (base g) with
        | Some c =>
            match steps (parked_ids (waits g)) c with
            | Some c' => Some {| base := c'; waits := map unpark (waits g) |}
            | None => None
            end
        | None => None
        end
      else
        match step i (base g) with
        | Some c => Some {| base := c; waits := waits g |}
        | None => None
        end
  | _, _ => None
  end.

Fixpoint gsteps (sched : list nat) (g : GoConfig) : option GoConfig :=
  match sched with
  | [] => Some g
  | i :: sched' =>
      match gstep i g with
      | Some g' => gsteps sched' g'
      | None => None
      end
  end.

Definition ginit (m : Machine) (callss : list (list call)) : GoConfig :=
  {| base := init m callss; waits := map (fun _ => Running) callss |}.

End Run.

(** ** A scripted world, to run the controller on concrete inputs *)

(** The answers the pool and pgbouncer will give, in order; when a script
    is used up the call succeeds. *)
Record Script : Type := mkScript {
  conn_script : list (DB + error);
  exec_script : list (option error)
}.

Definition script_connect (_ : ConnectionPool) (_ : string) (w : Script)
    : (DB + error) * Script :=
  match conn_script w with
  | [] => (inl 0, w)
  | r :: rs => (r, {| conn_script := rs; exec_script := exec_script w |})
  end.

Definition script_exec (_ : DB) (_ : string) (w : Script)
    : option error * Script :=
  match exec_script w with
  | [] => (None, w)
  | r :: rs => (r, {| conn_script := conn_script w; exec_script := rs |})
  end.

Definition script_machine (b : bool) (w : Script) : Machine Script :=
  {| inst := {| mu := {| writer := false; readers := 0 |}; paused := b;
                pool := NewConnectionPool "host=/run port=6432 user=pgbouncer sslmode=disable" |};
     world := w; trace := [] |}.

Definition srun {R : Type} (p : prog R) (m : Machine Script) :=
  run script_connect script_exec p m.

(** Inputs the properties below are tried on. *)
Definition not_ready : error := ErrOther "pgbouncer is not ready".

Definition demo_machine : Machine Script :=
  script_machine false
    (mkScript [inl 7; inr not_ready; inl 8; inl 9]
              [Some not_ready; Some ErrNotExist; None; Some not_ready]).

Definition demo_calls : list call :=
  [CallPaused; CallPause; CallPaused; CallResume; CallPaused;
   CallResume; CallPaused; CallResume; CallPaused].

(** The pool has no connection to give. *)
Definition demo_down : Machine Script :=
  script_machine true (mkScript [inr not_ready] []).

(** pgbouncer rejects the command every time. *)
Definition demo_never_ready : Machine Script :=
  script_machine false
    (mkScript [inl 7] [Some ErrNotExist; Some ErrNotExist; Some ErrNotExist;
                       Some not_ready; None]).

(** A paused instance whose pgbouncer rejects the next command. *)
Definition demo_paused : Machine Script :=
  script_machine true (mkScript [inl 7] [Some not_ready]).

(** Two goroutines: one calls [Pause] while pgbouncer is not ready yet,
    the other calls [Paused]. *)
Definition demo_start : Config Script :=
  init (script_machine false (mkScript [inl 7] [Some not_ready; Some not_ready; None]))
       [[CallPause]; [CallPaused]].

(** The first goroutine has connected, failed once and slept: it is about
    to try the command again. *)
Definition demo_mid_retry : Config Script :=
  match steps script_connect script_exec [0; 0; 0] demo_start with
  | Some c => c
  | None => demo_start
  end.

(** The second goroutine has taken the read lock meanwhile. *)
Definition demo_reading : Config Script :=
  match steps script_connect script_exec [1] demo_mid_retry with
  | Some c => c
  | None => demo_mid_retry
  end.

(** The first goroutine tries the command again while the second reads. *)
Definition demo_reading_next : Config Script :=
  match step script_connect script_exec 0 demo_reading with
  | Some c => c
  | None => demo_reading
  end.

(** A schedule that lets both goroutines return. *)
Definition demo_schedule : list nat := [0; 0; 0; 1; 0; 1; 1; 0; 0; 0; 0; 0].

Definition demo_done : Config Script :=
  match steps script_connect script_exec demo_schedule demo_start with
  | Some c => c
  | None => demo_start
  end.

(** Three goroutines on a ready pgbouncer: a reader, a caller of [Pause]
    and another reader, with the mutex as Go implements it. *)
Definition demo_go_start : GoConfig Script :=
  ginit (script_machine false (mkScript [inl 7] [None]))
        [[CallPaused]; [CallPause]; [CallPaused]].

(** The first reader holds the read lock, the caller of [Pause] is in
    [Lock] waiting for it to leave, the second reader has called [RLock]
    meanwhile. *)
Definition demo_go_waiting : GoConfig Script :=
  match gsteps script_connect script_exec [0; 1; 1; 1; 2] demo_go_start with
  | Some g => g
  | None => demo_go_start
  end.

(** * Vocabulary of the properties *)

(** ** Errors, contexts and the retry budget *)

Definition is_wrapped (e : error) : bool :=
  match Unwrap e with Some _ => true | None => false end.

(** The number of attempts [Pause] allows its command. *)
Definition budget : nat := Z.to_nat (Steps DefaultBackoff).

Definition conn_ctx : string := "while connecting to pgbouncer database locally".
Definition resume_ctx : string := "while resuming instance".

(** The flag mutation both [Pause] and [Resume] end with. *)
Definition flag_update (b : bool) : list obs :=
  [Obs MuLock tt; Obs (StorePaused b) tt; Obs MuUnlock tt].

(** ** Outcomes of the retry loop *)

(** The closure [retry.OnError] hands to [wait.ExponentialBackoff]
    when [fn] is a single [db.Exec] of [q] on [db]. *)
Definition exec_condition (retriable : error -> bool) (db : DB) (q : string)
    (lastErr : option error) : prog (option error * (bool * option error)) :=
  err <- trigger (DbExec db q) ;;
  match err with
  | None => Ret (lastErr, (true, None))
  | Some e =>
      if retriable e then Ret (Some e, (false, None))
      else Ret (lastErr, (false, Some e))
  end.

(** How a run of the loop ended: the answers of its attempts, and
    whether the last one succeeded. *)
Inductive attempts_outcome (db : DB) (q : string) (budget : nat)
    (lastErr : option error)
    : list obs -> option error * option error -> Prop :=
| attempts_succeeded (errs : list error) (t0 : list obs) (st : option error) :
    List.length errs < budget ->
    exec_calls (t0 ++ [Obs (DbExec db q) None]) =
      map (fun e => (db, q, Some e)) errs ++ [(db, q, None)] ->
    attempts_outcome db q budget lastErr (t0 ++ [Obs (DbExec db q) None]) (st, None)
| attempts_exhausted (errs : list error) (t : list obs) :
    List.length errs = budget ->
    exec_calls t = map (fun e => (db, q, Some e)) errs ->
    attempts_outcome db q budget lastErr t
      (last (map Some errs) lastErr, Some ErrWaitTimeout).

(** How [retry.OnError] ended: with success after fewer failures than
    the budget, or with the error of the last attempt once the budget
    is used up. *)
Inductive OnError_outcome (db : DB) (q : string) (budget : nat)
    : list obs -> option error -> Prop :=
| OnError_succeeded (errs : list error) (t0 : list obs) :
    List.length errs < budget ->
    exec_calls t0 = map (fun e => (db, q, Some e)) errs ->
    OnError_outcome db q budget (t0 ++ [Obs (DbExec db q) None]) None
| OnError_exhausted (errs : list error) (e : error) (t : list obs) :
    List.length (errs ++ [e]) = budget ->
    exec_calls t = map (fun e => (db, q, Some e)) (errs ++ [e]) ->
    OnError_outcome db q budget t (Some e).

(** ** Outcomes of one call *)

Section Outcomes.
Variable W : Type.
Variable connect : ConnectionPool -> string -> W -> (DB + error) * W.
Variable exec : DB -> string -> W -> option error * W.

Inductive Pause_outcome (m : Machine W) : option error -> Machine W -> Prop :=
| Pause_conn_failed (e : error) (w : W) :
    connect (pool (inst m)) "pgbouncer" (world m) = (inr e, w) ->
    Pause_outcome m (Some (Errorf_w conn_ctx e))
      {| inst := inst m; world := w;
         trace := trace m ++ [Obs (PoolConnection "pgbouncer") (inr e)] |}
| Pause_exec_failed (db : DB) (w : W) (errs : list error) (e : error)
      (t : list obs) (m' : Machine W) :
    connect (pool (inst m)) "pgbouncer" (world m) = (inl db, w) ->
    inst m' = inst m ->
    trace m' = trace m ++ Obs (PoolConnection "pgbouncer") (inl db) :: t ->
    forallb (obs_is (@is_net)) t = true ->
    exec_calls t = map (fun e => (db, "PAUSE", Some e)) (errs ++ [e]) ->
    List.length (errs ++ [e]) = budget ->
    Pause_outcome m (Some e) m'
| Pause_succeeded (db : DB) (w : W) (errs : list error)
      (t0 : list obs) (m' : Machine W) :
    connect (pool (inst m)) "pgbouncer" (world m) = (inl db, w) ->
    inst m' = set_paused (inst m) true ->
    trace m' = trace m ++ Obs (PoolConnection "pgbouncer") (inl db) ::
                 t0 ++ Obs (DbExec db "PAUSE") None :: flag_update true ->
    forallb (obs_is (@is_net)) t0 = true ->
    exec_calls t0 = map (fun e => (db, "PAUSE", Some e)) errs ->
    List.length errs < budget ->
    Pause_outcome m None m'.

Inductive Resume_outcome (m : Machine W) : option error -> Machine W -> Prop :=
| Resume_conn_failed (e : error) (w : W) :
    connect (pool (inst m)) "pgbouncer" (world m) = (inr e, w) ->
    Resume_outcome m (Some (Errorf_w conn_ctx e))
      {| inst := inst m; world := w;
         trace := trace m ++ [Obs (PoolConnection "pgbouncer") (inr e)] |}
| Resume_exec_failed (db : DB) (w w' : W) (e : error) :
    connect (pool (inst m)) "pgbouncer" (world m) = (inl db, w) ->
    exec db "RESUME" w = (Some e, w') ->
    Resume_outcome m (Some (Errorf_w resume_ctx e))
      {| inst := inst m; world := w';
         trace := trace m ++ [Obs (PoolConnection "pgbouncer") (inl db);
                              Obs (DbExec db "RESUME") (Some e)] |}
| Resume_succeeded (db : DB) (w w' : W) :
    connect (pool (inst m)) "pgbouncer" (world m) = (inl db, w) ->
    exec db "RESUME" w = (None, w') ->
    Resume_outcome m None
      {| inst := set_paused (inst m) false; world := w';
         trace := trace m ++ Obs (PoolConnection "pgbouncer") (inl db) ::
                    Obs (DbExec db "RESUME") None :: flag_update false |}.

(** Two Machine Ws that differ at most in the flag. *)
Definition same_but_flag (m1 m2 : Machine W) : Prop :=
  mu (inst m1) = mu (inst m2) /\ pool (inst m1) = pool (inst m2) /\
  world m1 = world m2 /\ trace m1 = trace m2.

End Outcomes.

(** ** Histories of calls *)

(** The flag a history leaves behind: a successful [Pause] sets it, a
    successful [Resume] clears it, nothing else touches it. *)
Definition step_flag (b : bool) (x : call * result) : bool :=
  match x with
  | (CallPause, RErr None) => true
  | (CallResume, RErr None) => false
  | _ => b
  end.

Definition flag_after (b : bool) (h : list (call * result)) : bool :=
  fold_left step_flag h b.

(** A call returned what it may return when the flag is [b]: [Paused]
    returns [b], the other two return an error or nil. *)
Definition return_ok (b : bool) (x : call * result) : bool :=
  match x with
  | (CallPaused, RBool r) => Bool.eqb r b
  | (CallPause, RErr _) | (CallResume, RErr _) => true
  | _ => false
  end.

Fixpoint returns_ok (b : bool) (h : list (call * result)) : bool :=
  match h with
  | [] => true
  | x :: h' => return_ok b x && returns_ok (step_flag b x) h'
  end.

(** ** What a program can do, whatever the answers it gets *)

(** Every effect on every path of the program satisfies [P]. *)
Fixpoint always_ev (P : forall X, event X -> Prop) {R : Type} (p : prog R) : Prop :=
  match p with
  | Ret _ => True
  | Vis e k => P _ e /\ forall x, always_ev P (k x)
  end.

(** The program never reads the flag. *)
Definition never_loads {R : Type} (p : prog R) : Prop :=
  always_ev (fun _ e => is_load e = false) p.

(** Every connection request of the program is for database [dbname] and
    every command it executes is the text [query]. *)
Definition talks (dbname query : string) (X : Type) (e : event X) : Prop :=
  match e with
  | PoolConnection n => n = dbname
  | DbExec _ q => q = query
  | _ => True
  end.

(** What a caller can see of a run: the value returned, the world and the
    effects performed. *)
Definition visible {W R : Type} (x : option (R * Machine W))
    : option (R * W * list obs) :=
  match x with
  | Some (r, m) => Some (r, world m, trace m)
  | None => None
  end.

(** ** The lock discipline *)

(** The next effect of the program is a network effect: the caller is in
    its network phase. *)
Definition at_net {R : Type} (p : prog R) : bool :=
  match p with
  | Vis e _ => is_net e
  | Ret _ => false
  end.

(** The next effect of the program is the write of the flag or the
    release of the write lock. *)
Definition at_flag_update {R : Type} (p : prog R) : bool :=
  match p with
  | Vis e _ => is_store e || is_unlock e
  | Ret _ => false
  end.

(** The next effect of the program is the write of the flag. *)
Definition at_store {R : Type} (p : prog R) : bool :=
  match p with
  | Vis e _ => is_store e
  | Ret _ => false
  end.

(** The next effect of the program is the read of the flag. *)
Definition at_load {R : Type} (p : prog R) : bool :=
  match p with
  | Vis e _ => is_load e
  | Ret _ => false
  end.

(** The goroutine holds the write lock or is asking for it. *)
Definition writing (t : thread) : bool :=
  mode_eqb (held t) HoldW ||
  match code t with
  | Vis e _ => is_lock e
  | Ret _ => false
  end.

(** The effect [e] is made by a caller holding [h] as the lock discipline
    wants it: the network is used and locks are taken with nothing held,
    the flag is read under the read lock and written under the write lock,
    a lock is released by its holder. *)
Definition ok_in {X : Type} (h : mode) (e : event X) : Prop :=
  match e with
  | PoolConnection _ | DbExec _ _ | Sleep _ | MuLock | MuRLock => h = Free
  | MuRUnlock | LoadPaused => h = HoldR
  | MuUnlock | StorePaused _ => h = HoldW
  end.

(** Every path of the program follows the discipline and ends with
    nothing held. *)
Fixpoint disc {R : Type} (h : mode) (p : prog R) : Prop :=
  match p with
  | Ret _ => h = Free
  | Vis e k => ok_in h e /\ forall x, disc (next_mode e h) (k x)
  end.

Fixpoint holders (h : mode) (ts : list thread) : nat :=
  match ts with
  | [] => 0
  | t :: ts' => (if mode_eqb (held t) h then 1 else 0) + holders h ts'
  end.

Definition holds (h : mode) (t : thread) : nat :=
  if mode_eqb (held t) h then 1 else 0.

(** The mutex says what the goroutines hold. *)
Definition mutex_agrees (mx : RWMutex) (ts : list thread) : Prop :=
  (writer mx = true /\ holders HoldW ts = 1 /\ holders HoldR ts = 0 /\ readers mx = 0) \/
  (writer mx = false /\ holders HoldW ts = 0 /\ readers mx = holders HoldR ts).

Definition Inv {W : Type} (c : Config W) : Prop :=
  Forall (fun t => disc (held t) (code t)) (threads c) /\
  mutex_agrees (mu (inst (shared c))) (threads c).

(** ** Reasoning along the paths of a program *)

(** [wp Pe Q tr p]: on every path of [p], started after the effects [tr],
    each effect satisfies [Pe] of the effects made before it, and the value
    returned satisfies [Q] of all the effects made. *)
Fixpoint wp {R : Type} (Pe : list obs -> forall X, event X -> Prop)
    (Q : list obs -> R -> Prop) (tr : list obs) (p : prog R) : Prop :=
  match p with
  | Ret r => Q tr r
  | Vis e k => Pe tr _ e /\ forall x, wp Pe Q (tr ++ [Obs e x]) (k x)
  end.

Definition any_event (_ : list obs) (X : Type) (_ : event X) : Prop := True.

Definition any_result {R : Type} (_ : list obs) (_ : R) : Prop := True.

(** The error an effect failed with, if it failed. *)
Definition failure (o : obs) : option error :=
  match o with
  | Obs e x =>
      match e in event T return T -> option error with
      | PoolConnection _ =>
          fun r => match r with inr err => Some err | inl _ => None end
      | DbExec _ _ => fun r => r
      | _ => fun _ => None
      end x
  end.

(** The value an effect wrote to the flag, if it wrote it. *)
Definition store_of (o : obs) : option bool :=
  match o with
  | Obs e _ => match e with StorePaused b => Some b | _ => None end
  end.

(** The command that goes with setting the flag to [b]. *)
Definition command_for (b : bool) : string := if b then "PAUSE" else "RESUME".

(** The effect is a [db.Exec] of the command for [b] that answered nil. *)
Definition is_accept (b : bool) (o : obs) : bool :=
  match o with
  | Obs e x =>
      match e in event T return T -> bool with
      | DbExec _ q =>
          fun r => match r with
                   | None => String.eqb q (command_for b)
                   | Some _ => false
                   end
      | _ => fun _ => false
      end x
  end.

(** pgbouncer has accepted the command for [b] among the effects [t]. *)
Definition accepted (b : bool) (t : list obs) : Prop :=
  existsb (is_accept b) t = true.

(** The flag is written only once the matching command has been
    accepted. *)
Definition store_justified (tr : list obs) (X : Type) (e : event X) : Prop :=
  match e with
  | StorePaused b => accepted b tr
  | _ => True
  end.

(** Every write of the flag in [t] comes after an accepted command for the
    value written. *)
Definition stores_follow_accepts (t : list obs) : Prop :=
  forall t1 o t2 b,
    t = t1 ++ o :: t2 -> store_of o = Some b -> accepted b t1.

(** The effects of a call that returned an error end with the effect that
    failed, and the error returned is, for [errors.Is], the error of that
    effect. *)
Definition error_has_cause (t : list obs) (r : option error) : Prop :=
  forall err, r = Some err ->
    exists t0 o e, t = t0 ++ [o] /\ failure o = Some e /\ errors_Is err e = true.

(** The call asked the pool once, for database "pgbouncer", and every
    command it executed was [query], on the handle the pool gave. *)
Definition one_connection (query : string) (t : list obs) : Prop :=
  exists x,
    connection_calls t = [("pgbouncer", x)] /\
    forall d q a, In (d, q, a) (exec_calls t) -> x = inl d /\ q = query.

(** The goroutine has made all its calls. *)
Definition returned (t : thread) : bool :=
  match code t with
  | Ret _ => true
  | Vis _ _ => false
  end.

(** No path of the program makes more than [n] effects. *)
Fixpoint height_le {R : Type} (n : nat) (p : prog R) {struct p} : Prop :=
  match p with
  | Ret _ => True
  | Vis e k =>
      match n with
      | O => False
      | S n' => forall x, height_le n' (k x)
      end
  end.

(** In the state [c], reached from the machine [m0]: every goroutine
    will write the flag only after an accepted command, every write made
    since [m0] came after one, and the flag is the one of [m0] unless the
    command for its value has been accepted. *)
Definition writes_justified {W : Type} (m0 : Machine W) (c : Config W) : Prop :=
  exists t,
    trace (shared c) = trace m0 ++ t /\
    Forall (fun th => wp store_justified any_result t (code th)) (threads c) /\
    stores_follow_accepts t /\
    (paused (inst (shared c)) = paused (inst m0) \/
     accepted (paused (inst (shared c))) t).

(** Effects one call can make at most: the connection request, [budget]
    attempts with a sleep after each, lock, write, unlock. *)
Definition call_bound : nat := 2 * budget + 4.

(** What the waiting goroutines are waiting for: a goroutine announced in
    [Lock] is at its [Lock], no writer holds the mutex and nobody else is
    announced; a goroutine parked in [RLock] is at its [RLock] and a writer
    is present. *)
Definition waits_ok {W : Type} (g : GoConfig W) : Prop :=
  List.length (waits g) = List.length (threads (base g)) /\
  (forall i, nth_error (waits g) i = Some Announced ->
     (exists t, nth_error (threads (base g)) i = Some t /\
                head_is (@is_lock) t = true) /\
     writer (mu (inst (shared (base g)))) = false /\
     forall j, nth_error (waits g) j = Some Announced -> j = i) /\
  (forall i, nth_error (waits g) i = Some Parked ->
     (exists t, nth_error (threads (base g)) i = Some t /\
                head_is (@is_rlock) t = true) /\
     writer_present g = true).

(** * Properties *)

(** ** Arithmetic of the backoff, lists *)

Lemma Pause_retriable_true (e : error) : Pause_retriable e = true.
Proof. unfold Pause_retriable. destruct (errors_Is e ErrNotExist); reflexivity. Qed.

Lemma Backoff_Step_uncapped (b : Backoff) :
  (1 <= Steps b)%Z -> (Cap b <= 0)%Z ->
  Steps (snd (Backoff_Step b)) = (Steps b - 1)%Z /\
  Cap (snd (Backoff_Step b)) = Cap b.
Proof.
  intros Hs Hc. unfold Backoff_Step.
  destruct (Z.ltb_spec (Steps b) 1) as [H|H]; [lia|].
  cbn [snd Factor Cap Steps Duration].
  destruct (Factor b =? 0)%Z; cbn [Steps Cap]; [split; reflexivity|].
  destruct (Z.ltb_spec 0 (Cap b)) as [H0|H0]; [lia|].
  cbn [andb Steps Cap]. split; reflexivity.
Qed.

Lemma last_cons_default {A : Type} (l : list A) :
  forall a d : A, last (a :: l) d = last l a.
Proof.
  induction l as [|x l IH]; intros a d; [reflexivity|].
  change (last (a :: x :: l) d) with (last (x :: l) d).
  rewrite (IH x d), (IH x a). reflexivity.
Qed.

(** Unfold the record updates of a machine. *)
Ltac machine_simpl :=
  cbn;
  unfold log, with_inst, with_world, set_mu, set_paused;
  cbn [inst world trace mu paused pool writer readers].

Lemma exec_calls_app (s t : list obs) :
  exec_calls (s ++ t) = exec_calls s ++ exec_calls t.
Proof.
  induction s as [|[X e x] s IH]; [reflexivity|].
  cbn [app exec_calls]. destruct e; cbn; rewrite ?IH; reflexivity.
Qed.

Lemma net_no_store (t : list obs) :
  forallb (obs_is (@is_net)) t = true -> forallb no_store t = true.
Proof.
  induction t as [|[X e x] t IH]; [reflexivity|].
  cbn [forallb]. intros H. apply andb_prop in H as [He Ht].
  rewrite (IH Ht), andb_true_r.
  destruct e; try discriminate He; reflexivity.
Qed.

(** ** Sequential runs *)

Section Sequential.
Variable W : Type.
Variable connect : ConnectionPool -> string -> W -> (DB + error) * W.
Variable exec : DB -> string -> W -> option error * W.

Abbreviation machine := (Machine W).
Abbreviation runW := (run connect exec).
Abbreviation run_callsW := (run_calls connect exec).
Abbreviation handleW := (handle connect exec).

Lemma run_bind {A B : Type} (p : prog A) (f : A -> prog B) (m : machine) :
  runW (bind p f) m =
  match runW p m with
  | Some (a, m') => runW (f a) m'
  | None => None
  end.
Proof.
  revert m. induction p as [a|X e k IH]; intro m; cbn [bind run].
  - reflexivity.
  - destruct (handleW e m) as [[x m']|]; [apply IH|reflexivity].
Qed.

Lemma run_trigger {X : Type} (e : event X) (m : machine) :
  runW (trigger e) m =
  match handleW e m with
  | Some (x, m') => Some (x, log m' (Obs e x))
  | None => None
  end.
Proof.
  unfold trigger. cbn [run run].
  destruct (handleW e m) as [[x m']|]; reflexivity.
Qed.

(** *** The retry loop of [Pause] *)

Section Retry.
Variable retriable : error -> bool.
Hypothesis retriable_all : forall e, retriable e = true.
Variable db : DB.
Variable q : string.

Lemma ExponentialBackoff_loop_spec (fuel : nat) :
  forall (b : Backoff) (lastErr : option error) (m : machine),
    Steps b = Z.of_nat fuel -> (Cap b <= 0)%Z ->
    exists r m' t,
      runW (ExponentialBackoff_loop fuel b (exec_condition retriable db q) lastErr) m = Some (r, m') /\
      inst m' = inst m /\
      trace m' = trace m ++ t /\
      forallb (obs_is (@is_net)) t = true /\
      attempts_outcome db q fuel lastErr t r.
Proof.
  induction fuel as [|fuel IH]; intros b lastErr m Hs Hc.
  - exists (lastErr, Some ErrWaitTimeout), m, [].
    cbn [ExponentialBackoff_loop run].
    repeat split; [now rewrite app_nil_r|].
    apply (@attempts_exhausted db q 0 lastErr [] []); reflexivity.
  - cbn [ExponentialBackoff_loop].
    destruct (Z.ltb_spec 0 (Steps b)) as [_|H]; [|lia].
    rewrite run_bind. unfold exec_condition at 1.
    rewrite run_bind, run_trigger. cbn [handle].
    destruct (exec db q (world m)) as [[e|] w] eqn:He.
    + rewrite retriable_all. cbn [run].
      destruct (Z.eqb_spec (Steps b) 1) as [H1|H1].
      * exists (Some e, Some ErrWaitTimeout).
        eexists. exists [Obs (DbExec db q) (Some e)].
        cbn [run]. repeat split.
        assert (fuel = 0) by lia. subst fuel.
        apply (@attempts_exhausted db q 1 lastErr [e] [Obs (DbExec db q) (Some e)]); reflexivity.
      * destruct (Backoff_Step b) as [d b'] eqn:Hb.
        pose proof (Backoff_Step_uncapped b ltac:(lia) Hc) as [Hs' Hc'].
        rewrite Hb in Hs', Hc'. cbn [snd] in Hs', Hc'.
        rewrite run_bind, run_trigger. cbn [handle].
        set (m1 := log _ (Obs (Sleep d) tt)).
        destruct (IH b' (Some e) m1 ltac:(lia) ltac:(lia))
          as (r & m' & t & Hrun & Hinst & Htr & Hnet & Hout).
        exists r, m', (Obs (DbExec db q) (Some e) :: Obs (Sleep d) tt :: t).
        repeat split; [exact Hrun|exact Hinst| |exact Hnet|].
        { rewrite Htr. subst m1. cbn [trace log with_world].
          rewrite <- !app_assoc. reflexivity. }
        { destruct Hout as [errs t0 st Hlen Hex|errs t1 Hlen Hex].
          - change (Obs (DbExec db q) (Some e) :: Obs (Sleep d) tt
                      :: t0 ++ [Obs (DbExec db q) None])
              with ((Obs (DbExec db q) (Some e) :: Obs (Sleep d) tt :: t0)
                      ++ [Obs (DbExec db q) None]).
            apply (@attempts_succeeded db q (S fuel) lastErr (e :: errs)).
            + cbn [List.length]. lia.
            + cbn [app exec_calls map]. f_equal. exact Hex.
          - replace (last (map Some errs) (Some e))
              with (last (map Some (e :: errs)) lastErr).
            + apply (@attempts_exhausted db q (S fuel) lastErr (e :: errs)).
              * cbn [List.length]. lia.
              * cbn [exec_calls map]. f_equal. exact Hex.
            + cbn [map]. apply last_cons_default. }
    + cbn [run].
      exists (lastErr, None). eexists. exists ([] ++ [Obs (DbExec db q) None]).
      repeat split.
      apply (@attempts_succeeded db q (S fuel) lastErr [] [] lastErr); [cbn; lia|reflexivity].
Qed.

Lemma OnError_spec (b : Backoff) (m : machine) :
  (0 < Steps b)%Z -> (Cap b <= 0)%Z ->
  exists r m' t,
    runW (OnError b retriable (trigger (DbExec db q))) m = Some (r, m') /\
    inst m' = inst m /\
    trace m' = trace m ++ t /\
    forallb (obs_is (@is_net)) t = true /\
    OnError_outcome db q (Z.to_nat (Steps b)) t r.
Proof.
  intros Hs Hc. unfold OnError, ExponentialBackoff.
  change (fun lastErr : option error =>
            bind (trigger (DbExec db q)) _) with (exec_condition retriable db q).
  destruct (ExponentialBackoff_loop_spec (Z.to_nat (Steps b)) b None m
              ltac:(lia) Hc)
    as (r & m' & t & Hrun & Hinst & Htr & Hnet & Hout).
  rewrite run_bind, Hrun.
  destruct Hout as [errs t0 st Hlen Hex|errs t1 Hlen Hex].
  - exists None, m', (t0 ++ [Obs (DbExec db q) None]).
    repeat split; try assumption.
    apply (@OnError_succeeded db q _ errs); [exact Hlen|].
    rewrite exec_calls_app in Hex. cbn [exec_calls] in Hex.
    apply app_inj_tail in Hex. apply Hex.
  - destruct (exists_last (l := errs)) as (errs' & e & ->).
    { intros ->. cbn in Hlen. lia. }
    rewrite map_app. cbn [map]. rewrite last_last.
    exists (Some e), m', t1. repeat split; try assumption.
    apply (@OnError_exhausted db q _ errs'); assumption.
Qed.

End Retry.

(** *** What one call does *)

Lemma mu_free_eq (p : pgBouncerInstance) :
  mu_free p -> mu p = {| writer := false; readers := 0 |}.
Proof.
  destruct p as [[w r] b pl]. unfold mu_free. cbn. intros [-> ->]. reflexivity.
Qed.

Lemma Paused_spec (m : machine) :
  mu_free (inst m) ->
  runW Paused m =
  Some (paused (inst m),
        {| inst := inst m; world := world m;
           trace := trace m ++ [Obs MuRLock tt; Obs LoadPaused (paused (inst m));
                                Obs MuRUnlock tt] |}).
Proof.
  intros Hf. apply mu_free_eq in Hf.
  destruct m as [[mx b pl] w tr]. cbn in Hf. subst mx.
  machine_simpl. rewrite <- !app_assoc. reflexivity.
Qed.

Lemma Resume_spec (m : machine) :
  mu_free (inst m) ->
  exists r m', runW Resume m = Some (r, m') /\ Resume_outcome connect exec m r m'.
Proof.
  intros Hf. apply mu_free_eq in Hf.
  destruct m as [[mx b pl] w tr]. cbn in Hf. subst mx.
  unfold Resume. rewrite run_bind, run_trigger. cbn [handle inst pool world].
  destruct (connect pl "pgbouncer" w) as [[db|e] w1] eqn:Hc.
  - rewrite run_bind, run_trigger. cbn [handle log with_world inst world trace].
    destruct (exec db "RESUME" w1) as [[e|] w2] eqn:He.
    + eexists _, _. split; [reflexivity|].
      machine_simpl. rewrite <- app_assoc.
      eapply (@Resume_exec_failed W connect exec (mkMachine (mkInstance (mkRWMutex false 0) b pl) w tr)); cbn; eassumption.
    + eexists _, _. split; [reflexivity|].
      machine_simpl. rewrite <- !app_assoc.
      eapply (@Resume_succeeded W connect exec (mkMachine (mkInstance (mkRWMutex false 0) b pl) w tr)); cbn; eassumption.
  - eexists _, _. split; [reflexivity|].
    apply (@Resume_conn_failed W connect exec (mkMachine (mkInstance (mkRWMutex false 0) b pl) w tr)). exact Hc.
Qed.

Lemma Pause_spec (m : machine) :
  mu_free (inst m) ->
  exists r m', runW Pause m = Some (r, m') /\ Pause_outcome connect m r m'.
Proof.
  intros Hf. apply mu_free_eq in Hf.
  unfold Pause. rewrite run_bind, run_trigger. cbn [handle].
  destruct (connect (pool (inst m)) "pgbouncer" (world m)) as [[db|e] w1] eqn:Hc.
  - rewrite run_bind.
    set (m1 := log (with_world m w1) (Obs (PoolConnection "pgbouncer") (inl db))).
    destruct (@OnError_spec Pause_retriable Pause_retriable_true db "PAUSE"
                DefaultBackoff m1 eq_refl ltac:(cbn; lia))
      as (r & m2 & t & Hrun & Hinst & Htr & Hnet & Hout).
    rewrite Hrun.
    destruct Hout as [errs t0 Hlen Hex|errs e t Hlen Hex].
    + destruct m2 as [i2 w2 tr2]. cbn in Hinst, Htr. subst i2 tr2.
      destruct m as [[mx b pl] w tr]. cbn in Hf. subst mx.
      eexists _, _. split; [reflexivity|].
      rewrite forallb_app in Hnet. apply andb_prop in Hnet as [Hnet _].
      eapply (@Pause_succeeded W connect (mkMachine (mkInstance (mkRWMutex false 0) b pl) w tr) db w1 errs t0);
        cbn; try eassumption; try reflexivity.
      machine_simpl. rewrite <- !app_assoc. reflexivity.
    + exists (Some e), m2. split; [reflexivity|].
      eapply (@Pause_exec_failed W connect m db w1 errs e t m2); try eassumption.
      rewrite Htr. subst m1. machine_simpl. rewrite <- app_assoc. reflexivity.
  - eexists _, _. split; [reflexivity|].
    apply (@Pause_conn_failed W connect m e w1). exact Hc.
Qed.

(** *** Histories of calls *)

Lemma call_spec (m : machine) (c : call) :
  mu_free (inst m) ->
  exists r m',
    runW (call_prog c) m = Some (r, m') /\
    mu_free (inst m') /\
    pool (inst m') = pool (inst m) /\
    paused (inst m') = step_flag (paused (inst m)) (c, r) /\
    return_ok (paused (inst m)) (c, r) = true.
Proof.
  intros Hf. destruct c; cbn [call_prog]; rewrite run_bind.
  - rewrite (Paused_spec m Hf). cbn [run].
    eexists _, _. split; [reflexivity|]. cbn.
    repeat split; try apply Hf. apply Bool.eqb_reflx.
  - destruct (Pause_spec m Hf) as (r & m' & -> & Hout). cbn [run].
    exists (RErr r), m'. split; [reflexivity|].
    destruct Hout as [e w Hc|db w errs e t m' Hc Hi Ht Hn He Hl
                     |db w errs t0 m' Hc Hi Ht Hn He Hl]; cbn.
    + repeat split; apply Hf.
    + rewrite Hi. repeat split; apply Hf.
    + rewrite Hi. repeat split; apply Hf.
  - destruct (Resume_spec m Hf) as (r & m' & -> & Hout). cbn [run].
    exists (RErr r), m'. split; [reflexivity|].
    destruct Hout; cbn; repeat split; apply Hf.
Qed.

Lemma run_calls_spec (cs : list call) :
  forall m : machine,
    mu_free (inst m) ->
    exists h m',
      run_callsW cs m = Some (h, m') /\
      map fst h = cs /\
      mu_free (inst m') /\
      paused (inst m') = flag_after (paused (inst m)) h /\
      returns_ok (paused (inst m)) h = true.
Proof.
  induction cs as [|c cs IH]; intros m Hf.
  - exists [], m. repeat split; apply Hf.
  - destruct (call_spec m c Hf) as (r & m1 & Hrun & Hf1 & _ & Hp & Hr).
    destruct (IH m1 Hf1) as (h & m2 & Hruns & Hmap & Hf2 & Hp2 & Hrs).
    exists ((c, r) :: h), m2. cbn [run_calls]. rewrite Hrun, Hruns.
    split; [reflexivity|]. split; [cbn; now rewrite Hmap|].
    split; [exact Hf2|]. split.
    + rewrite Hp2, Hp. reflexivity.
    + cbn [returns_ok]. rewrite Hr, <- Hp. exact Hrs.
Qed.

Lemma returns_ok_app (h1 h2 : list (call * result)) :
  forall b,
    returns_ok b (h1 ++ h2) = returns_ok b h1 && returns_ok (flag_after b h1) h2.
Proof.
  induction h1 as [|x h1 IH]; intro b; [reflexivity|].
  cbn [app returns_ok]. rewrite IH, andb_assoc. reflexivity.
Qed.

Lemma flag_stays (b : bool) (h : list (call * result)) :
  ~ In (if b then CallResume else CallPause, RErr None) h ->
  flag_after b h = b.
Proof.
  induction h as [|x h IH]; intro Hn; [reflexivity|].
  cbn [flag_after fold_left].
  assert (Hx : step_flag b x = b).
  { destruct x as [[| |] [r|[e|]]]; try reflexivity;
      destruct b; try reflexivity; exfalso; apply Hn; left; reflexivity. }
  rewrite Hx. apply IH. intro Hin. apply Hn. right. exact Hin.
Qed.

(** A read that follows a successful [Pause] or [Resume], with no
    successful call of the other kind in between. *)
Lemma read_after_success (b0 b r : bool) (h1 h2 h3 : list (call * result)) :
  returns_ok b0
    (h1 ++ (if b then CallPause else CallResume, RErr None) :: h2
        ++ (CallPaused, RBool r) :: h3) = true ->
  ~ In (if b then CallResume else CallPause, RErr None) h2 ->
  r = b.
Proof.
  intros Hok Hn.
  rewrite returns_ok_app in Hok. apply andb_prop in Hok as [_ Hok].
  cbn [returns_ok] in Hok. apply andb_prop in Hok as [_ Hok].
  rewrite returns_ok_app in Hok. apply andb_prop in Hok as [_ Hok].
  cbn [returns_ok return_ok] in Hok. apply andb_prop in Hok as [Hok _].
  apply Bool.eqb_prop in Hok. rewrite Hok.
  assert (Hs : step_flag (flag_after b0 h1)
                 (if b then CallPause else CallResume, RErr None) = b)
    by (destruct b; reflexivity).
  rewrite Hs. apply flag_stays. exact Hn.
Qed.

(** A read made before any [Pause] has succeeded on an instance whose flag
    was false. *)
Lemma read_before_first_pause (h1 h2 : list (call * result)) (r : bool) :
  returns_ok false (h1 ++ (CallPaused, RBool r) :: h2) = true ->
  ~ In (CallPause, RErr None) h1 ->
  r = false.
Proof.
  intros Hok Hn.
  rewrite returns_ok_app in Hok. apply andb_prop in Hok as [_ Hok].
  cbn [returns_ok return_ok] in Hok. apply andb_prop in Hok as [Hok _].
  apply Bool.eqb_prop in Hok. rewrite Hok.
  apply (flag_stays false). exact Hn.
Qed.

(** ** The claims about single callers *)

(** C1: in every sequence of calls on one instance, a [Paused] call made
    after a [Pause] that returned nil returns true as long as no [Resume]
    has returned nil in between, and a [Paused] call made after a
    [Resume] that returned nil returns false as long as no [Pause] has
    returned nil in between.  Every such sequence runs to its end. *)
Theorem Paused_follows_last_success (m : machine) (cs : list call) :
  mu_free (inst m) ->
  exists h m',
    run_callsW cs m = Some (h, m') /\
    map fst h = cs /\
    (forall h1 h2 h3 r,
        h = h1 ++ (CallPause, RErr None) :: h2 ++ (CallPaused, RBool r) :: h3 ->
        ~ In (CallResume, RErr None) h2 ->
        r = true) /\
    (forall h1 h2 h3 r,
        h = h1 ++ (CallResume, RErr None) :: h2 ++ (CallPaused, RBool r) :: h3 ->
        ~ In (CallPause, RErr None) h2 ->
        r = false).
Proof.
  intros Hf.
  destruct (run_calls_spec cs m Hf) as (h & m' & Hrun & Hmap & _ & _ & Hok).
  exists h, m'. split; [exact Hrun|]. split; [exact Hmap|]. split.
  - intros h1 h2 h3 r -> Hn.
    exact (read_after_success (paused (inst m)) true r h1 h2 h3 Hok Hn).
  - intros h1 h2 h3 r -> Hn.
    exact (read_after_success (paused (inst m)) false r h1 h2 h3 Hok Hn).
Qed.

(** C2: whatever the call, the flag is written at most once, as the
    last thing the call does, under the write lock taken straight after a
    [db.Exec] that answered nil; a call that does not return nil leaves
    the whole instance as it was, writes nothing, and a [Paused] made
    after it returns the flag of before the call. *)
Theorem flag_written_only_after_success (m : machine) (c : call) :
  mu_free (inst m) ->
  exists r m' t,
    runW (call_prog c) m = Some (r, m') /\
    trace m' = trace m ++ t /\
    ((r <> RErr None /\ inst m' = inst m /\ forallb no_store t = true /\
      exists m'', runW Paused m' = Some (paused (inst m), m'')) \/
     (r = RErr None /\
      exists t0 db q b,
        t = t0 ++ Obs (DbExec db q) None :: flag_update b /\
        forallb no_store t0 = true /\
        inst m' = set_paused (inst m) b)).
Proof.
  intros Hf. destruct c; cbn [call_prog]; rewrite run_bind.
  - rewrite (Paused_spec m Hf). cbn [run].
    eexists _, _, _. split; [reflexivity|]. split; [reflexivity|].
    left. repeat split; [discriminate|].
    eexists. apply (Paused_spec (mkMachine (inst m) (world m) _)). exact Hf.
  - destruct (Pause_spec m Hf) as (r & m' & -> & Hout). cbn [run].
    destruct Hout as [e w Hc|db w errs e t m' Hc Hi Ht Hn He Hl
                     |db w errs t0 m' Hc Hi Ht Hn He Hl].
    + eexists _, _, _. split; [reflexivity|]. split; [reflexivity|].
      left. repeat split; [discriminate|].
      eexists. apply (Paused_spec (mkMachine (inst m) w _)). exact Hf.
    + exists (RErr (Some e)), m', (Obs (PoolConnection "pgbouncer") (inl db) :: t).
      split; [reflexivity|]. split; [exact Ht|].
      left. repeat split; [discriminate|exact Hi| |].
      * cbn [forallb]. now rewrite (net_no_store t Hn).
      * eexists. rewrite <- Hi. apply Paused_spec. rewrite Hi. exact Hf.
    + exists (RErr None), m',
        (Obs (PoolConnection "pgbouncer") (inl db) ::
           t0 ++ Obs (DbExec db "PAUSE") None :: flag_update true).
      split; [reflexivity|]. split; [exact Ht|].
      right. split; [reflexivity|].
      exists (Obs (PoolConnection "pgbouncer") (inl db) :: t0), db, "PAUSE", true.
      repeat split; [|exact Hi].
      cbn [forallb]. now rewrite (net_no_store t0 Hn).
  - destruct (Resume_spec m Hf) as (r & m' & -> & Hout). cbn [run].
    destruct Hout as [e w Hc|db w w' e Hc He|db w w' Hc He].
    + eexists _, _, _. split; [reflexivity|]. split; [reflexivity|].
      left. repeat split; [discriminate|].
      eexists. apply (Paused_spec (mkMachine (inst m) w _)). exact Hf.
    + eexists _, _, _. split; [reflexivity|]. split; [reflexivity|].
      left. repeat split; [discriminate|].
      eexists. apply (Paused_spec (mkMachine (inst m) w' _)). exact Hf.
    + eexists _, _, _. split; [reflexivity|]. split; [reflexivity|].
      right. split; [reflexivity|].
      exists [Obs (PoolConnection "pgbouncer") (inl db)], db, "RESUME", false.
      repeat split.
Qed.

(** C4: whatever the state of the instance, when the pool answers the
    connection request with an error [e], [Pause] and [Resume] both
    return [e] wrapped in the connection context; all either of them did
    is that one connection request (no [db.Exec], no second request), and
    the instance, its flag included, is as before. *)
Theorem connection_failure_returns_at_once (m : machine) (e : error) (w : W) :
  connect (pool (inst m)) "pgbouncer" (world m) = (inr e, w) ->
  let t := [Obs (PoolConnection "pgbouncer") (inr e)] in
  let m' := {| inst := inst m; world := w; trace := trace m ++ t |} in
  runW Pause m = Some (Some (Errorf_w conn_ctx e), m') /\
  runW Resume m = Some (Some (Errorf_w conn_ctx e), m') /\
  exec_calls t = [] /\
  connection_calls t = [("pgbouncer", inr e)] /\
  Unwrap (Errorf_w conn_ctx e) = Some e /\
  paused (inst m') = paused (inst m).
Proof.
  intros Hc t m'. repeat split.
  - unfold Pause. rewrite run_bind, run_trigger. cbn [handle]. rewrite Hc.
    reflexivity.
  - unfold Resume. rewrite run_bind, run_trigger. cbn [handle]. rewrite Hc.
    reflexivity.
Qed.

(** C5: once the connection is there, [Pause] always returns, having
    made at most [budget] attempts of the command.  Either all
    [budget] attempts failed, and it returns the error of the last one
    with the flag as before; or some attempt, after fewer than [budget]
    failures, succeeded, it was the last attempt, and [Pause] returns nil
    with the flag set. *)
Theorem Pause_retries_within_budget (m : machine) (db : DB) (w : W) :
  mu_free (inst m) ->
  connect (pool (inst m)) "pgbouncer" (world m) = (inl db, w) ->
  exists r m' t,
    runW Pause m = Some (r, m') /\
    trace m' = trace m ++ Obs (PoolConnection "pgbouncer") (inl db) :: t /\
    List.length (exec_calls t) <= budget /\
    ((exists errs e,
         r = Some e /\
         exec_calls t = map (fun e => (db, "PAUSE", Some e)) (errs ++ [e]) /\
         List.length (errs ++ [e]) = budget /\
         paused (inst m') = paused (inst m)) \/
     (exists errs,
         r = None /\
         exec_calls t = map (fun e => (db, "PAUSE", Some e)) errs
                          ++ [(db, "PAUSE", None)] /\
         List.length errs < budget /\
         paused (inst m') = true)).
Proof.
  intros Hf Hc.
  destruct (Pause_spec m Hf) as (r & m' & Hrun & Hout).
  destruct Hout as [e w' Hc'|db' w' errs e t m' Hc' Hi Ht Hn He Hl
                   |db' w' errs t0 m' Hc' Hi Ht Hn He Hl];
    rewrite Hc in Hc'; inversion Hc'; subst db' w'.
  - exists (Some e), m', t. repeat split; try assumption.
    + rewrite He, length_map. lia.
    + left. exists errs, e. repeat split; try assumption. now rewrite Hi.
  - exists None, m', (t0 ++ Obs (DbExec db "PAUSE") None :: flag_update true).
    assert (Hex : exec_calls (t0 ++ Obs (DbExec db "PAUSE") None :: flag_update true)
                  = map (fun e => (db, "PAUSE", Some e)) errs ++ [(db, "PAUSE", None)]).
    { rewrite exec_calls_app, He. reflexivity. }
    repeat split; try assumption.
    + rewrite Hex, length_app, length_map. cbn [List.length]. lia.
    + right. exists errs. repeat split; try assumption. now rewrite Hi.
Qed.

(** C6: [Resume] always returns, and makes no [db.Exec] when the
    connection failed and exactly one, of "RESUME" on the handle it got,
    otherwise.  When that one execution fails with [e], [Resume] returns
    [e] wrapped in the resume context straight after it and the instance,
    flag included, is as before; when it succeeds the flag is cleared. *)
Theorem Resume_executes_once (m : machine) :
  mu_free (inst m) ->
  exists r m' t,
    runW Resume m = Some (r, m') /\
    trace m' = trace m ++ t /\
    List.length (exec_calls t) <= 1 /\
    match connect (pool (inst m)) "pgbouncer" (world m) with
    | (inr _, _) => exec_calls t = []
    | (inl db, w) =>
        exec_calls t = [(db, "RESUME", fst (exec db "RESUME" w))] /\
        match fst (exec db "RESUME" w) with
        | Some e =>
            r = Some (Errorf_w resume_ctx e) /\
            Unwrap (Errorf_w resume_ctx e) = Some e /\
            t = [Obs (PoolConnection "pgbouncer") (inl db);
                 Obs (DbExec db "RESUME") (Some e)] /\
            inst m' = inst m
        | None => r = None /\ paused (inst m') = false
        end
    end.
Proof.
  intros Hf.
  destruct (Resume_spec m Hf) as (r & m' & Hrun & Hout).
  destruct Hout as [e w Hc|db w w' e Hc He|db w w' Hc He];
    eexists _, _, _; (split; [exact Hrun|]); (split; [reflexivity|]);
    rewrite Hc; try rewrite He; cbn; repeat split; lia.
Qed.

(** C8: the instance [NewPgBouncerInstance] builds has its flag false
    and its mutex free; [Paused] on it returns false, and in every
    sequence of calls made on it each [Paused] that comes before the first
    [Pause] that returned nil returns false. *)
Theorem fresh_instance_not_paused (dir : string) (port : Z) (user : string)
    (w : W) (cs : list call) :
  let m0 := {| inst := NewPgBouncerInstance dir port user;
               world := w; trace := [] |} in
  paused (inst m0) = false /\
  (exists m', runW Paused m0 = Some (false, m')) /\
  exists h m',
    run_callsW cs m0 = Some (h, m') /\
    forall h1 h2 r,
      h = h1 ++ (CallPaused, RBool r) :: h2 ->
      ~ In (CallPause, RErr None) h1 ->
      r = false.
Proof.
  intros m0.
  assert (Hf : mu_free (inst m0)) by (split; reflexivity).
  split; [reflexivity|]. split.
  - eexists. apply (Paused_spec m0 Hf).
  - destruct (run_calls_spec cs m0 Hf) as (h & m' & Hrun & _ & _ & _ & Hok).
    exists h, m'. split; [exact Hrun|].
    intros h1 h2 r -> Hn. exact (read_before_first_pause h1 h2 r Hok Hn).
Qed.

End Sequential.

(** C7: the predicate [Pause] gives to [retry.OnError] answers true for
    every error, whether or not the error is (or wraps) [os.ErrNotExist];
    errors of both kinds exist. *)
Theorem Pause_retriable_every_error :
  (forall e : error, Pause_retriable e = true) /\
  errors_Is (Errorf_w "open socket" ErrNotExist) ErrNotExist = true /\
  errors_Is (ErrOther "permission denied") ErrNotExist = false.
Proof.
  split; [|split; reflexivity].
  intro e. unfold Pause_retriable.
  case (errors_Is e ErrNotExist); reflexivity.
Qed.

(** ** Programs that never read the flag *)

Lemma always_ev_bind (P : forall X, event X -> Prop) {A B : Type}
    (p : prog A) (f : A -> prog B) :
  always_ev P p -> (forall a, always_ev P (f a)) -> always_ev P (bind p f).
Proof.
  intros Hp Hf. induction p as [a|X e k IH]; cbn [bind always_ev].
  - apply Hf.
  - destruct Hp as [He Hk]. split; [exact He|].
    intro x. apply IH, Hk.
Qed.

Lemma always_ev_trigger (P : forall X, event X -> Prop) {X : Type} (e : event X) :
  P _ e -> always_ev P (trigger e).
Proof. intro He. split; [exact He|]. intro x. exact I. Qed.

Lemma always_ev_ExponentialBackoff_loop (P : forall X, event X -> Prop)
    {St : Type} (condition : St -> prog (St * (bool * option error))) :
  (forall d, P _ (Sleep d)) ->
  (forall st, always_ev P (condition st)) ->
  forall fuel b st, always_ev P (ExponentialBackoff_loop fuel b condition st).
Proof.
  intros Hsleep Hcond.
  induction fuel as [|fuel IH]; intros b st; cbn [ExponentialBackoff_loop].
  - exact I.
  - destruct (0 <? Steps b)%Z; [|exact I].
    apply always_ev_bind; [apply Hcond|].
    intros [st' [ok [e|]]]; [exact I|].
    destruct ok; [exact I|].
    destruct (Steps b =? 1)%Z; [exact I|].
    destruct (Backoff_Step b) as [d b'].
    apply always_ev_bind; [apply always_ev_trigger, Hsleep|].
    intros _. apply IH.
Qed.

Lemma always_ev_OnError (P : forall X, event X -> Prop)
    (b : Backoff) (retriable : error -> bool) (fn : prog (option error)) :
  (forall d, P _ (Sleep d)) ->
  always_ev P fn ->
  always_ev P (OnError b retriable fn).
Proof.
  intros Hsleep Hfn. unfold OnError, ExponentialBackoff.
  apply always_ev_bind.
  - apply always_ev_ExponentialBackoff_loop; [exact Hsleep|].
    intro st. apply always_ev_bind; [exact Hfn|].
    intros [e|]; [destruct (retriable e)|]; exact I.
  - intros [lastErr [[| |msg|ctx inner]|]]; exact I.
Qed.

(** [Pause] and [Resume] are made of the same three steps; [P] holds of
    all their effects as soon as it holds of the effects they are written
    with. *)
Lemma always_ev_Pause (P : forall X, event X -> Prop) :
  P _ (PoolConnection "pgbouncer") ->
  (forall db, P _ (DbExec db "PAUSE")) ->
  (forall d, P _ (Sleep d)) ->
  P _ MuLock -> P _ (StorePaused true) -> P _ MuUnlock ->
  always_ev P Pause.
Proof.
  intros Hconn Hexec Hsleep Hlock Hstore Hunlock. unfold Pause.
  apply always_ev_bind; [apply always_ev_trigger, Hconn|].
  intros [db|e]; [|exact I].
  apply always_ev_bind.
  - apply always_ev_OnError; [exact Hsleep|]. apply always_ev_trigger, Hexec.
  - intros [e|]; [exact I|]. cbn. repeat split; assumption.
Qed.

Lemma always_ev_Resume (P : forall X, event X -> Prop) :
  P _ (PoolConnection "pgbouncer") ->
  (forall db, P _ (DbExec db "RESUME")) ->
  P _ MuLock -> P _ (StorePaused false) -> P _ MuUnlock ->
  always_ev P Resume.
Proof.
  intros Hconn Hexec Hlock Hstore Hunlock. unfold Resume.
  apply always_ev_bind; [apply always_ev_trigger, Hconn|].
  intros [db|e]; [|exact I].
  apply always_ev_bind; [apply always_ev_trigger, Hexec|].
  intros [e|]; [exact I|]. cbn. repeat split; assumption.
Qed.

Section FlagBlind.
Variable W : Type.
Variable connect : ConnectionPool -> string -> W -> (DB + error) * W.
Variable exec : DB -> string -> W -> option error * W.

Lemma run_flag_blind {R : Type} (p : prog R) :
  never_loads p ->
  forall m1 m2,
    same_but_flag m1 m2 ->
    match run connect exec p m1, run connect exec p m2 with
    | Some (r1, m1'), Some (r2, m2') => r1 = r2 /\ same_but_flag m1' m2'
    | None, None => True
    | _, _ => False
    end.
Proof.
  induction p as [r|X e k IH]; intros Hp m1 m2 Hm.
  - cbn. split; [reflexivity|exact Hm].
  - destruct Hp as [He Hk]. cbn [run].
    destruct m1 as [[mx1 b1 pl1] w1 t1], m2 as [[mx2 b2 pl2] w2 t2].
    destruct Hm as (Hmu & Hpl & Hw & Ht). cbn in Hmu, Hpl, Hw, Ht. subst.
    destruct mx2 as [wr rd].
    destruct e; try discriminate He; cbn [handle inst mu pool world writer readers].
    + destruct (connect pl2 dbname w2) as [r w'].
      apply IH; [apply Hk|]. repeat split.
    + destruct (exec db query w2) as [r w'].
      apply IH; [apply Hk|]. repeat split.
    + apply IH; [apply Hk|]. repeat split.
    + destruct wr; [exact I|]. apply IH; [apply Hk|]. repeat split.
    + destruct rd; [exact I|]. apply IH; [apply Hk|]. repeat split.
    + destruct wr; [exact I|]. destruct rd; [|exact I].
      apply IH; [apply Hk|]. repeat split.
    + destruct wr; [|exact I]. apply IH; [apply Hk|]. repeat split.
    + apply IH; [apply Hk|]. repeat split.
Qed.

Lemma visible_flag_blind {R : Type} (p : prog R) (m : Machine W) (b : bool) :
  never_loads p ->
  visible (run connect exec p (with_inst m (set_paused (inst m) b))) =
  visible (run connect exec p m).
Proof.
  intros Hp.
  assert (Hm : same_but_flag (with_inst m (set_paused (inst m) b)) m)
    by (repeat split).
  pose proof (@run_flag_blind R p Hp _ _ Hm) as H.
  destruct (run connect exec p (with_inst m (set_paused (inst m) b)))
    as [[r1 m1]|], (run connect exec p m) as [[r2 m2]|]; cbn.
  - destruct H as [-> (_ & _ & -> & ->)]. reflexivity.
  - destruct H.
  - destruct H.
  - reflexivity.
Qed.

End FlagBlind.

(** C10: [Pause] and [Resume] never read the flag; the first thing each
    does is ask the pool for database "pgbouncer", and the first thing each
    does with the handle it gets is execute "PAUSE", respectively "RESUME";
    they ask for no other database and execute no other text.  So, in any
    world and whatever the flag is set to beforehand, what they return and
    the effects they perform are the same. *)
Theorem Pause_Resume_ignore_cached_flag :
  never_loads Pause /\ never_loads Resume /\
  (exists k, Pause = Vis (PoolConnection "pgbouncer") k /\
             forall db, exists k', k (inl db) = Vis (DbExec db "PAUSE") k') /\
  (exists k, Resume = Vis (PoolConnection "pgbouncer") k /\
             forall db, exists k', k (inl db) = Vis (DbExec db "RESUME") k') /\
  always_ev (talks "pgbouncer" "PAUSE") Pause /\
  always_ev (talks "pgbouncer" "RESUME") Resume /\
  forall (W : Type) connect exec (m : Machine W) (b : bool),
    visible (run connect exec Pause (with_inst m (set_paused (inst m) b))) =
    visible (run connect exec Pause m) /\
    visible (run connect exec Resume (with_inst m (set_paused (inst m) b))) =
    visible (run connect exec Resume m).
Proof.
  assert (HP : never_loads Pause) by (apply always_ev_Pause; reflexivity).
  assert (HR : never_loads Resume) by (apply always_ev_Resume; reflexivity).
  split; [exact HP|]. split; [exact HR|].
  split; [eexists; split; [reflexivity|]; intro db; eexists; reflexivity|].
  split; [eexists; split; [reflexivity|]; intro db; eexists; reflexivity|].
  split; [apply always_ev_Pause; cbn; auto|].
  split; [apply always_ev_Resume; cbn; auto|].
  intros W connect exec m b. split; apply visible_flag_blind; assumption.
Qed.

(** ** Several callers at once *)

(** *** The lock discipline of the three methods *)

Lemma disc_bind {A B : Type} (p : prog A) (f : A -> prog B) :
  forall h, disc h p -> (forall a, disc Free (f a)) -> disc h (bind p f).
Proof.
  induction p as [a|X e k IH]; intros h Hp Hf; cbn [bind disc] in *.
  - subst h. apply Hf.
  - destruct Hp as [He Hk]. split; [exact He|].
    intro x. apply IH; [apply Hk|exact Hf].
Qed.

Lemma net_only_disc {R : Type} (p : prog R) :
  always_ev (fun _ e => is_net e = true) p -> disc Free p.
Proof.
  induction p as [r|X e k IH]; intro Hp; cbn [disc].
  - reflexivity.
  - destruct Hp as [He Hk].
    destruct e; try discriminate He; (split; [reflexivity|]);
      intro x; apply IH, Hk.
Qed.

Lemma disc_Paused : disc Free Paused.
Proof. cbn. repeat split. Qed.

Lemma disc_Pause : disc Free Pause.
Proof.
  unfold Pause. apply disc_bind.
  - apply net_only_disc, always_ev_trigger. reflexivity.
  - intros [db|e]; [|reflexivity].
    apply disc_bind.
    + apply net_only_disc, always_ev_OnError; [reflexivity|].
      apply always_ev_trigger. reflexivity.
    + intros [e|]; [reflexivity|]. cbn. repeat split.
Qed.

Lemma disc_Resume : disc Free Resume.
Proof.
  unfold Resume. apply disc_bind.
  - apply net_only_disc, always_ev_trigger. reflexivity.
  - intros [db|e]; [|reflexivity].
    apply disc_bind.
    + apply net_only_disc, always_ev_trigger. reflexivity.
    + intros [e|]; [reflexivity|]. cbn. repeat split.
Qed.

Lemma disc_thread_prog (cs : list call) : disc Free (thread_prog cs).
Proof.
  induction cs as [|c cs IH]; cbn [thread_prog]; [reflexivity|].
  apply disc_bind.
  - destruct c; cbn [call_prog]; apply disc_bind;
      try (intro; reflexivity).
    + apply disc_Paused.
    + apply disc_Pause.
    + apply disc_Resume.
  - intro r. apply disc_bind; [exact IH|]. intro rs. reflexivity.
Qed.

(** *** Updating one goroutine *)

Lemma nth_error_upd_same {A : Type} (l : list A) :
  forall i x y, nth_error l i = Some y -> nth_error (upd i x l) i = Some x.
Proof.
  induction l as [|a l IH]; intros [|i] x y H; cbn in *; try discriminate.
  - reflexivity.
  - eapply IH, H.
Qed.

Lemma nth_error_upd_other {A : Type} (l : list A) :
  forall i j x, i <> j -> nth_error (upd i x l) j = nth_error l j.
Proof.
  induction l as [|a l IH]; intros [|i] [|j] x H; cbn; try reflexivity.
  - contradiction.
  - apply IH. intro E. apply H. now rewrite E.
Qed.

Lemma Forall_upd {A : Type} (P : A -> Prop) (l : list A) :
  forall i x, Forall P l -> P x -> Forall P (upd i x l).
Proof.
  induction l as [|a l IH]; intros [|i] x Hl Hx; cbn; try exact Hl.
  - inversion Hl; subst. constructor; assumption.
  - inversion Hl; subst. constructor; [assumption|]. apply IH; assumption.
Qed.

Lemma holders_upd (h : mode) (ts : list thread) :
  forall i new old,
    nth_error ts i = Some old ->
    holders h (upd i new ts) + holds h old = holders h ts + holds h new.
Proof.
  unfold holds.
  induction ts as [|t ts IH]; intros [|i] new old H; cbn in *; try discriminate.
  - inversion H; subst. cbn. lia.
  - specialize (IH i new old H). lia.
Qed.

Lemma holders_none (h : mode) (ts : list thread) :
  (forall j t, nth_error ts j = Some t -> mode_eqb (held t) h = false) ->
  holders h ts = 0.
Proof.
  induction ts as [|t ts IH]; intro H; [reflexivity|].
  cbn [holders]. rewrite (H 0 t eq_refl), IH; [reflexivity|].
  intros j t' Hj. apply (H (S j)). exact Hj.
Qed.

(** *** The invariant of interleaved runs *)

Section ConcurrentFacts.
Variable W : Type.
Variable connect : ConnectionPool -> string -> W -> (DB + error) * W.
Variable exec : DB -> string -> W -> option error * W.

Lemma Inv_init (m : Machine W) (callss : list (list call)) :
  mu_free (inst m) -> Inv (init m callss).
Proof.
  intros [Hw Hr]. split; cbn [init threads shared].
  - apply Forall_forall. intros t Ht. apply in_map_iff in Ht as (cs & <- & _).
    apply disc_thread_prog.
  - right. rewrite Hw, Hr.
    assert (H : forall h, h <> Free ->
              holders h (map (fun cs => {| held := Free; code := thread_prog cs |})
                           callss) = 0).
    { intros h Hh. induction callss as [|cs l IH]; [reflexivity|].
      cbn [map holders held]. rewrite IH. destruct h; [contradiction| |]; reflexivity. }
    rewrite !H by discriminate. repeat split.
Qed.

Lemma Inv_step (i : nat) (c c' : Config W) :
  Inv c -> step connect exec i c = Some c' -> Inv c'.
Proof.
  intros [Hd Hm] Hs. unfold step in Hs.
  destruct (nth_error (threads c) i) as [[h p]|] eqn:Hi; [|discriminate].
  cbn [code held] in Hs. destruct p as [r|X e k]; [discriminate|].
  assert (Ht : disc h (Vis e k)).
  { eapply Forall_forall in Hd; [|eapply nth_error_In, Hi]. exact Hd. }
  destruct Ht as [He Hk].
  destruct c as [[[[wr rd] b pl] w tr] ts].
  cbn [threads shared inst mu] in *.
  pose proof (fun new => holders_upd HoldW ts i new Hi) as HW.
  pose proof (fun new => holders_upd HoldR ts i new Hi) as HR.
  unfold holds in HW, HR. cbn [held] in HW, HR.
  unfold mutex_agrees in Hm. cbn [writer readers] in Hm.
  destruct e; cbn [ok_in] in He; subst h;
    cbn [handle inst mu pool world writer readers paused] in Hs;
    repeat match type of Hs with
           | context [connect ?p ?n ?x] => destruct (connect p n x)
           | context [exec ?d ?t ?x] => destruct (exec d t x)
           | context [match ?x with _ => _ end] => is_var x; destruct x
           end;
    try discriminate Hs;
    inversion Hs; subst c'; clear Hs;
    (split; cbn [threads shared]; [apply Forall_upd; [exact Hd|apply Hk]|]);
    machine_simpl; unfold mutex_agrees; cbn [writer readers];
    match goal with
    | |- context [upd i ?new ts] => specialize (HW new); specialize (HR new)
    end;
    cbn in HW, HR;
    destruct Hm as [(? & ? & ? & ?)|(? & ? & ?)]; try discriminate;
    first [ left; repeat split; first [assumption|lia]
          | right; repeat split; first [assumption|lia] ].
Qed.

Lemma Inv_steps (sched : list nat) :
  forall c c' : Config W,
    Inv c -> steps connect exec sched c = Some c' -> Inv c'.
Proof.
  induction sched as [|i sched IH]; intros c c' Hinv Hs; cbn [steps] in Hs.
  - inversion Hs; subst. exact Hinv.
  - destruct (step connect exec i c) as [c1|] eqn:H1; [|discriminate].
    eapply IH; [|exact Hs]. eapply Inv_step; eassumption.
Qed.

End ConcurrentFacts.

Section Readers.
Variable W : Type.
Variable connect : ConnectionPool -> string -> W -> (DB + error) * W.
Variable exec : DB -> string -> W -> option error * W.

(** A goroutine in its network phase holds nothing and asks for
    nothing. *)
Lemma net_phase_unlocked (c : Config W) (i : nat) (t : thread) :
  Inv c ->
  nth_error (threads c) i = Some t ->
  at_net (code t) = true ->
  held t = Free /\ writing t = false.
Proof.
  intros [Hd _] Hi Hn.
  eapply Forall_forall in Hd; [|eapply nth_error_In, Hi].
  destruct t as [h p]. cbn [code held] in *. unfold writing. cbn [code held].
  destruct p as [r|X e k]; [discriminate|].
  destruct Hd as [He _].
  destruct e; try discriminate Hn; cbn in He; subst h; split; reflexivity.
Qed.

Lemma holders_pos (h : mode) (ts : list thread) :
  forall i t, nth_error ts i = Some t -> held t = h -> 1 <= holders h ts.
Proof.
  induction ts as [|a ts IH]; intros [|i] t Hi Hh; cbn in Hi; try discriminate.
  - inversion Hi; subst. cbn [holders]. destruct (held t); cbn; lia.
  - cbn [holders]. specialize (IH i t Hi Hh). lia.
Qed.

(** A goroutine holds the write lock only to write the flag and release
    the lock, and no other goroutine holds the mutex meanwhile. *)
Lemma write_lock_around_flag_only (c : Config W) (i : nat) (t : thread) :
  Inv c ->
  nth_error (threads c) i = Some t ->
  held t = HoldW ->
  at_flag_update (code t) = true /\
  forall j t', j <> i -> nth_error (threads c) j = Some t' -> held t' = Free.
Proof.
  intros [Hd Hm] Hi Hh. split.
  - eapply Forall_forall in Hd; [|eapply nth_error_In, Hi].
    destruct t as [h p]. cbn [code held] in *. subst h.
    destruct p as [r|X e k]; [discriminate Hd|].
    destruct Hd as [He _]. destruct e; try discriminate He; reflexivity.
  - intros j t' Hne Hj.
    pose proof (holders_pos (threads c) i Hi Hh) as H1.
    destruct Hm as [(_ & HW & HR & _)|(_ & HW & _)]; [|lia].
    destruct (held t') eqn:Hh'; [reflexivity| |].
    + pose proof (holders_pos (threads c) j Hj Hh'). lia.
    + exfalso.
      pose proof (holders_upd HoldW (threads c) i
                    {| held := Free; code := code t |} Hi) as Hu.
      unfold holds in Hu. rewrite Hh in Hu. cbn in Hu.
      assert (Hj' : nth_error (upd i {| held := Free; code := code t |} (threads c)) j
                    = Some t')
        by (rewrite nth_error_upd_other by (intro E; apply Hne; now rewrite E);
            exact Hj).
      pose proof (holders_pos _ j Hj' Hh'). lia.
Qed.

(** A goroutine about to call [Paused] makes the whole call by itself
    when no other goroutine holds or asks for the write lock. *)
Lemma reader_completes (c : Config W) (i : nat) (t : thread)
    (k : bool -> prog (list result)) :
  Inv c ->
  nth_error (threads c) i = Some t ->
  code t = bind Paused k ->
  (forall j t', j <> i -> nth_error (threads c) j = Some t' -> writing t' = false) ->
  exists c',
    steps connect exec [i; i; i] c = Some c' /\
    nth_error (threads c') i =
      Some {| held := Free; code := k (paused (inst (shared c))) |} /\
    inst (shared c') = inst (shared c) /\
    forall j, j <> i -> nth_error (threads c') j = nth_error (threads c) j.
Proof.
  intros [Hd Hm] Hi Hcode Hothers.
  assert (Ht : disc (held t) (code t)).
  { eapply Forall_forall in Hd; [|eapply nth_error_In, Hi]. exact Hd. }
  destruct t as [h p]. cbn [code held] in *. subst p.
  destruct Ht as [Hh _]. cbn in Hh. subst h.
  assert (HW : holders HoldW (threads c) = 0).
  { apply holders_none. intros j t' Hj.
    destruct (Nat.eq_dec j i) as [->|Hne].
    - rewrite Hi in Hj. inversion Hj. reflexivity.
    - specialize (Hothers j t' Hne Hj). unfold writing in Hothers.
      apply orb_false_elim in Hothers. apply Hothers. }
  destruct c as [[[[wr rd] b pl] w tr] ts].
  cbn [threads shared inst mu] in *.
  assert (wr = false).
  { destruct Hm as [(_ & H1 & _)|(H0 & _)]; cbn in *; [lia|exact H0]. }
  subst wr.
  cbn [steps]. unfold step at 1. cbn [threads shared]. rewrite Hi.
  cbn [code held Paused bind trigger handle inst mu writer readers].
  unfold step at 1. cbn [threads shared].
  rewrite (nth_error_upd_same ts i _ Hi).
  cbn [code held bind handle log with_inst inst paused set_mu].
  unfold step at 1. cbn [threads shared].
  erewrite nth_error_upd_same
    by (eapply nth_error_upd_same; exact Hi).
  cbn [code held bind handle log with_inst inst paused set_mu mu readers writer
       next_mode].
  eexists. split; [reflexivity|]. cbn [threads shared inst].
  split; [|split].
  - eapply nth_error_upd_same. eapply nth_error_upd_same.
    eapply nth_error_upd_same. exact Hi.
  - reflexivity.
  - intros j Hne. rewrite !nth_error_upd_other by (intro E; apply Hne; now rewrite E).
    reflexivity.
Qed.

End Readers.

Section FlagUnderLock.
Variable W : Type.
Variable connect : ConnectionPool -> string -> W -> (DB + error) * W.
Variable exec : DB -> string -> W -> option error * W.

Lemma handle_keeps_flag {X : Type} (e : event X) (x : X) (m m' : Machine W) :
  handle connect exec e m = Some (x, m') ->
  is_store e = false ->
  paused (inst m') = paused (inst m).
Proof.
  destruct e; cbn [handle is_store]; intros H Hs; try discriminate Hs;
    repeat match type of H with
           | context [connect ?p ?n ?w] => destruct (connect p n w)
           | context [exec ?d ?t ?w] => destruct (exec d t w)
           | context [if ?b then _ else _] => destruct b
           | context [match ?n with O => _ | S _ => _ end] => destruct n
           end;
    try discriminate H; inversion H; reflexivity.
Qed.

Lemma Inv_reader_sees_stable_flag (c c' : Config W) (i j : nat) (t : thread) :
  Inv c ->
  nth_error (threads c) i = Some t ->
  held t = HoldR ->
  step connect exec j c = Some c' ->
  paused (inst (shared c')) = paused (inst (shared c)).
Proof.
  intros Hinv Hi Hh Hs. pose proof Hinv as [Hd _]. unfold step in Hs.
  destruct (nth_error (threads c) j) as [[h p]|] eqn:Hj; [|discriminate].
  cbn [code held] in Hs. destruct p as [r|X e k]; [discriminate|].
  destruct (handle connect exec e (shared c)) as [[x m']|] eqn:Hh'; [|discriminate].
  inversion Hs; subst c'; clear Hs. cbn [shared log inst].
  destruct (is_store e) eqn:He; [|eapply handle_keeps_flag; eassumption].
  exfalso.
  assert (Hdj : disc h (Vis e k)).
  { eapply Forall_forall in Hd; [|eapply nth_error_In, Hj]. exact Hd. }
  destruct Hdj as [Hok _].
  assert (h = HoldW) by (destruct e; try discriminate He; exact Hok). subst h.
  destruct (Nat.eq_dec i j) as [->|Hne].
  - rewrite Hi in Hj. inversion Hj; subst t. discriminate Hh.
  - destruct (@write_lock_around_flag_only W c j _ Hinv Hj eq_refl) as [_ Hothers].
    rewrite (Hothers i t Hne Hi) in Hh. discriminate Hh.
Qed.

(** The flag is written under the write lock and read under the read
    lock, and the mutex says so. *)
Lemma flag_access_locked (c : Config W) (i : nat) (t : thread) :
  Inv c ->
  nth_error (threads c) i = Some t ->
  (at_store (code t) = true ->
   held t = HoldW /\ writer (mu (inst (shared c))) = true) /\
  (at_load (code t) = true ->
   held t = HoldR /\ writer (mu (inst (shared c))) = false /\
   1 <= readers (mu (inst (shared c)))).
Proof.
  intros [Hd Hm] Hi.
  eapply Forall_forall in Hd; [|eapply nth_error_In, Hi].
  destruct t as [h p]. cbn [code held] in *.
  destruct p as [r|X e k]; [split; intro H; discriminate H|].
  destruct Hd as [He _]. cbn [at_store at_load]. split; intro Hk.
  - assert (h = HoldW) by (destruct e; try discriminate Hk; exact He). subst h.
    split; [reflexivity|].
    pose proof (@holders_pos HoldW (threads c) i _ Hi eq_refl) as Hp.
    destruct Hm as [(Hw & _)|(_ & HW & _)]; [exact Hw|lia].
  - assert (h = HoldR) by (destruct e; try discriminate Hk; exact He). subst h.
    split; [reflexivity|].
    pose proof (@holders_pos HoldR (threads c) i _ Hi eq_refl) as Hp.
    destruct Hm as [(_ & _ & HR & _)|(Hw & _ & Hr)]; [lia|].
    split; [exact Hw|lia].
Qed.
End FlagUnderLock.

(** C9: [Paused] makes no network effect.  In every state several
    goroutines calling the three methods can reach, whatever the schedule:
    a goroutine whose next effect is a network effect (the connection
    request, an attempt of the command, a sleep between two attempts) holds
    no lock and is not asking for one; a goroutine that holds the write
    lock is about to write the flag or to release the lock, and no other
    goroutine holds the mutex then; a goroutine about to write the flag
    holds the write lock and one about to read it holds the read lock, the
    mutex being locked accordingly; while a goroutine holds the read lock no
    step of any goroutine changes the flag; and a goroutine about to call
    [Paused] makes the whole call in three steps of its own, getting the
    current flag, as long as no other goroutine holds or is asking for the
    write lock -- in particular as long as the others are in their network
    phase. *)
Theorem Paused_not_blocked_by_network_phase
    (W : Type) (connect : ConnectionPool -> string -> W -> (DB + error) * W)
    (exec : DB -> string -> W -> option error * W)
    (m0 : Machine W) (callss : list (list call))
    (sched : list nat) (c : Config W) :
  mu_free (inst m0) ->
  steps connect exec sched (init m0 callss) = Some c ->
  always_ev (fun _ e => is_net e = false) Paused /\
  (forall i t,
      nth_error (threads c) i = Some t ->
      at_net (code t) = true ->
      held t = Free /\ writing t = false) /\
  (forall i t,
      nth_error (threads c) i = Some t ->
      held t = HoldW ->
      at_flag_update (code t) = true /\
      forall j t', j <> i -> nth_error (threads c) j = Some t' -> held t' = Free) /\
  (forall i t,
      nth_error (threads c) i = Some t ->
      (at_store (code t) = true ->
       held t = HoldW /\ writer (mu (inst (shared c))) = true) /\
      (at_load (code t) = true ->
       held t = HoldR /\ writer (mu (inst (shared c))) = false /\
       1 <= readers (mu (inst (shared c))))) /\
  (forall i j t c',
      nth_error (threads c) i = Some t ->
      held t = HoldR ->
      step connect exec j c = Some c' ->
      paused (inst (shared c')) = paused (inst (shared c))) /\
  (forall i t k,
      nth_error (threads c) i = Some t ->
      code t = bind Paused k ->
      (forall j t', j <> i -> nth_error (threads c) j = Some t' ->
                    at_net (code t') = true \/ writing t' = false) ->
      exists c',
        steps connect exec [i; i; i] c = Some c' /\
        nth_error (threads c') i =
          Some {| held := Free; code := k (paused (inst (shared c))) |} /\
        inst (shared c') = inst (shared c) /\
        forall j, j <> i -> nth_error (threads c') j = nth_error (threads c) j).
Proof.
  intros Hf Hs.
  assert (Hinv : Inv c).
  { eapply Inv_steps; [|exact Hs]. apply Inv_init. exact Hf. }
  split; [cbn; repeat split|]. split; [|split; [|split; [|split]]].
  - intros i t Hi Hn. eapply net_phase_unlocked; eassumption.
  - intros i t Hi Hh. eapply write_lock_around_flag_only; eassumption.
  - intros i t Hi. eapply flag_access_locked; eassumption.
  - intros i j t c' Hi Hh Hstep.
    eapply Inv_reader_sees_stable_flag; eassumption.
  - intros i t k Hi Hcode Hothers.
    eapply reader_completes; try eassumption.
    intros j t' Hne Hj. destruct (Hothers j t' Hne Hj) as [Hn|Hw]; [|exact Hw].
    eapply net_phase_unlocked; eassumption.
Qed.

(** ** Concrete runs *)

Example budget_value : budget = 4.
Proof. reflexivity. Qed.

(** Pause fails twice, then succeeds; Paused in between and after. *)
Example demo_history :
  option_map fst (run_calls script_connect script_exec demo_calls demo_machine) =
  Some [(CallPaused, RBool false); (CallPause, RErr None); (CallPaused, RBool true);
        (CallResume, RErr (Some (Errorf_w conn_ctx not_ready)));
        (CallPaused, RBool true);
        (CallResume, RErr (Some (Errorf_w resume_ctx not_ready)));
        (CallPaused, RBool true); (CallResume, RErr None);
        (CallPaused, RBool false)].
Proof. reflexivity. Qed.

(** Once the first goroutine has taken the write lock, the reader has to
    wait for the flag to be written and the lock released. *)
Example reader_waits_for_flag_update :
  option_map (fun c => map held (threads c))
    (steps script_connect script_exec [0; 0; 0; 0; 0; 0; 0] demo_start)
    = Some [HoldW; Free] /\
  steps script_connect script_exec [0; 0; 0; 0; 0; 0; 0; 1] demo_start = None /\
  option_map (fun c => map code (threads c))
    (steps script_connect script_exec [0; 0; 0; 0; 0; 0; 0; 0; 0; 1; 1; 1] demo_start)
    = Some [Ret [RErr None]; Ret [RBool true]].
Proof. repeat split. Qed.

(** C3: with the connection made and the command rejected on each of
    the four attempts, [Pause] returns the error of the last attempt as it
    got it, with no context around it; [Resume], on a rejected command,
    returns the error wrapped in its context. *)
Theorem Pause_exec_error_returned_bare :
  (exists m',
      srun Pause demo_never_ready = Some (Some not_ready, m') /\
      exec_calls (trace m') =
        [(7, "PAUSE", Some ErrNotExist); (7, "PAUSE", Some ErrNotExist);
         (7, "PAUSE", Some ErrNotExist); (7, "PAUSE", Some not_ready)]) /\
  is_wrapped not_ready = false /\
  Error not_ready = "pgbouncer is not ready" /\
  (exists m',
      srun Resume demo_paused = Some (Some (Errorf_w resume_ctx not_ready), m')) /\
  is_wrapped (Errorf_w resume_ctx not_ready) = true /\
  Error (Errorf_w resume_ctx not_ready) =
    "while resuming instance: pgbouncer is not ready".
Proof.
  split; [eexists; split; reflexivity|].
  split; [reflexivity|]. split; [reflexivity|].
  split; [eexists; reflexivity|]. split; reflexivity.
Qed.

Lemma Paused_follows_last_success_witness :
  mu_free (inst demo_machine) /\
  exists h m',
    run_calls script_connect script_exec demo_calls demo_machine = Some (h, m') /\
    map fst h = demo_calls /\
    (forall h1 h2 h3 r,
        h = h1 ++ (CallPause, RErr None) :: h2 ++ (CallPaused, RBool r) :: h3 ->
        ~ In (CallResume, RErr None) h2 ->
        r = true) /\
    (forall h1 h2 h3 r,
        h = h1 ++ (CallResume, RErr None) :: h2 ++ (CallPaused, RBool r) :: h3 ->
        ~ In (CallPause, RErr None) h2 ->
        r = false).
Proof.
  assert (H : mu_free (inst demo_machine)) by (split; reflexivity).
  split; [exact H|].
  exact (@Paused_follows_last_success Script script_connect script_exec
           demo_machine demo_calls H).
Defined.

Lemma flag_written_only_after_success_witness :
  mu_free (inst demo_never_ready) /\
  exists r m' t,
    srun (call_prog CallPause) demo_never_ready = Some (r, m') /\
    trace m' = trace demo_never_ready ++ t /\
    ((r <> RErr None /\ inst m' = inst demo_never_ready /\
      forallb no_store t = true /\
      exists m'', srun Paused m' = Some (paused (inst demo_never_ready), m'')) \/
     (r = RErr None /\
      exists t0 db q b,
        t = t0 ++ Obs (DbExec db q) None :: flag_update b /\
        forallb no_store t0 = true /\
        inst m' = set_paused (inst demo_never_ready) b)).
Proof.
  assert (H : mu_free (inst demo_never_ready)) by (split; reflexivity).
  split; [exact H|].
  exact (@flag_written_only_after_success Script script_connect script_exec
           demo_never_ready CallPause H).
Defined.

Lemma connection_failure_returns_at_once_witness :
  script_connect (pool (inst demo_down)) "pgbouncer" (world demo_down)
    = (inr not_ready, mkScript [] []) /\
  srun Pause demo_down =
    Some (Some (Errorf_w conn_ctx not_ready),
          {| inst := inst demo_down; world := mkScript [] [];
             trace := [Obs (PoolConnection "pgbouncer") (inr not_ready)] |}) /\
  srun Resume demo_down =
    Some (Some (Errorf_w conn_ctx not_ready),
          {| inst := inst demo_down; world := mkScript [] [];
             trace := [Obs (PoolConnection "pgbouncer") (inr not_ready)] |}).
Proof.
  assert (H : script_connect (pool (inst demo_down)) "pgbouncer" (world demo_down)
              = (inr not_ready, mkScript [] [])) by reflexivity.
  split; [exact H|].
  destruct (@connection_failure_returns_at_once Script script_connect script_exec
              demo_down not_ready (mkScript [] []) H) as (HP & HR & _).
  split; [exact HP|exact HR].
Defined.

Lemma Pause_retries_within_budget_witness :
  mu_free (inst demo_machine) /\
  script_connect (pool (inst demo_machine)) "pgbouncer" (world demo_machine)
    = (inl 7, mkScript [inr not_ready; inl 8; inl 9]
                [Some not_ready; Some ErrNotExist; None; Some not_ready]) /\
  exists r m' t,
    srun Pause demo_machine = Some (r, m') /\
    trace m' = trace demo_machine ++ Obs (PoolConnection "pgbouncer") (inl 7) :: t /\
    List.length (exec_calls t) <= budget /\
    ((exists errs e,
         r = Some e /\
         exec_calls t = map (fun e => (7, "PAUSE", Some e)) (errs ++ [e]) /\
         List.length (errs ++ [e]) = budget /\
         paused (inst m') = paused (inst demo_machine)) \/
     (exists errs,
         r = None /\
         exec_calls t = map (fun e => (7, "PAUSE", Some e)) errs
                          ++ [(7, "PAUSE", None)] /\
         List.length errs < budget /\
         paused (inst m') = true)).
Proof.
  assert (H : mu_free (inst demo_machine)) by (split; reflexivity).
  split; [exact H|]. split; [reflexivity|].
  exact (@Pause_retries_within_budget Script script_connect script_exec
           demo_machine 7 _ H eq_refl).
Defined.

Lemma Resume_executes_once_witness :
  mu_free (inst demo_paused) /\
  exists r m' t,
    srun Resume demo_paused = Some (r, m') /\
    trace m' = trace demo_paused ++ t /\
    List.length (exec_calls t) <= 1 /\
    exec_calls t = [(7, "RESUME", Some not_ready)] /\
    r = Some (Errorf_w resume_ctx not_ready) /\
    inst m' = inst demo_paused.
Proof.
  assert (H : mu_free (inst demo_paused)) by (split; reflexivity).
  split; [exact H|].
  destruct (@Resume_executes_once Script script_connect script_exec demo_paused H)
    as (r & m' & t & Hrun & Htr & Hlen & Hex & Hr & _ & _ & Hi).
  exists r, m', t. repeat split; assumption.
Defined.

Lemma Paused_not_blocked_by_network_phase_witness :
  mu_free (inst (shared demo_start)) /\
  steps script_connect script_exec [0; 0; 0] demo_start = Some demo_mid_retry /\
  (exists t, nth_error (threads demo_mid_retry) 0 = Some t /\
             at_net (code t) = true /\ held t = Free) /\
  exists c',
    steps script_connect script_exec [1; 1; 1] demo_mid_retry = Some c' /\
    nth_error (threads c') 1 = Some {| held := Free; code := Ret [RBool false] |}.
Proof.
  assert (H : mu_free (inst (shared demo_start))) by (split; reflexivity).
  assert (Hs : steps script_connect script_exec [0; 0; 0] demo_start
               = Some demo_mid_retry) by reflexivity.
  split; [exact H|]. split; [exact Hs|].
  destruct (@Paused_not_blocked_by_network_phase Script script_connect script_exec
              (shared demo_start) [[CallPause]; [CallPaused]] [0; 0; 0]
              demo_mid_retry H Hs) as (_ & Hnet & _ & _ & _ & Hread).
  split.
  - destruct (nth_error (threads demo_mid_retry) 0) as [t|] eqn:Ht; [|discriminate Ht].
    exists t. destruct (Hnet 0 t Ht) as [Hh _]; [|repeat split; [|exact Hh]];
      inversion Ht; reflexivity.
  - destruct (Hread 1 {| held := Free; code := thread_prog [CallPaused] |}
                (fun b => Ret [RBool b]) eq_refl eq_refl) as (c' & Hc' & Ht' & _).
    + intros [|[|j]] t' Hne Hj.
      * left. inversion Hj. reflexivity.
      * exfalso. apply Hne. reflexivity.
      * destruct j; discriminate Hj.
    + exists c'. split; assumption.
Defined.

(** ** Further properties of single calls *)

Lemma error_eqb_refl (e : error) : error_eqb e e = true.
Proof.
  induction e as [| |msg|ctx inner IH]; cbn; try reflexivity.
  - apply String.eqb_refl.
  - rewrite String.eqb_refl, IH. reflexivity.
Qed.

Lemma errors_Is_refl (e : error) : errors_Is e e = true.
Proof. destruct e; cbn; rewrite ?String.eqb_refl, ?error_eqb_refl; reflexivity. Qed.

Lemma errors_Is_wrap (ctx : string) (e target : error) :
  errors_Is e target = true -> errors_Is (Errorf_w ctx e) target = true.
Proof. intro H. cbn [errors_Is]. rewrite H. apply orb_true_r. Qed.

Lemma wp_bind {A B : Type} (Pe : list obs -> forall X, event X -> Prop)
    (Q : list obs -> B -> Prop) (p : prog A) (f : A -> prog B) :
  forall tr,
    wp Pe (fun tr' a => wp Pe Q tr' (f a)) tr p -> wp Pe Q tr (bind p f).
Proof.
  induction p as [a|X e k IH]; intros tr H; cbn [bind wp] in *.
  - exact H.
  - destruct H as [He Hk]. split; [exact He|]. intro x. apply IH, Hk.
Qed.

Lemma wp_weaken {R : Type} (Pe : list obs -> forall X, event X -> Prop)
    (Q Q' : list obs -> R -> Prop) (p : prog R) :
  (forall tr r, Q tr r -> Q' tr r) ->
  forall tr, wp Pe Q tr p -> wp Pe Q' tr p.
Proof.
  intros HQ. induction p as [r|X e k IH]; intros tr H; cbn [wp] in *.
  - apply HQ, H.
  - destruct H as [He Hk]. split; [exact He|]. intro x. apply IH, Hk.
Qed.

(** Walk all the paths of [Pause] or [Resume]: answers of the pool and of
    pgbouncer are split into success and failure, the retry predicate is
    replaced by its value. *)
Ltac walk_paths :=
  unfold Pause, Resume, OnError, ExponentialBackoff;
  change (Z.to_nat (Steps DefaultBackoff)) with 4;
  repeat (cbn -[Pause_retriable accepted];
          match goal with
          | |- _ /\ _ => split
          | |- forall x : _ + _, _ => intros [?|?]
          | |- forall x : option _, _ => intros [?|]
          | |- forall x : unit, _ => intros []
          | |- context [Pause_retriable ?e] => rewrite (Pause_retriable_true e)
          end);
  cbn -[Pause_retriable accepted].

Section SingleCalls.
Variable W : Type.
Variable connect : ConnectionPool -> string -> W -> (DB + error) * W.
Variable exec : DB -> string -> W -> option error * W.

Lemma handle_trace {X : Type} (e : event X) (m m' : Machine W) (x : X) :
  handle connect exec e m = Some (x, m') -> trace m' = trace m.
Proof.
  destruct e; cbn [handle]; intros H;
    repeat match type of H with
           | context [connect ?p ?n ?w] => destruct (connect p n w)
           | context [exec ?d ?t ?w] => destruct (exec d t w)
           | context [if ?b then _ else _] => destruct b
           | context [match ?n with O => _ | S _ => _ end] => destruct n
           end;
    try discriminate H; inversion H; reflexivity.
Qed.

(** What holds along all paths holds of the run. *)
Lemma wp_run {R : Type} (Pe : list obs -> forall X, event X -> Prop)
    (Q : list obs -> R -> Prop) (p : prog R) :
  forall tr (m m' : Machine W) r,
    wp Pe Q tr p ->
    run connect exec p m = Some (r, m') ->
    exists t, trace m' = trace m ++ t /\ Q (tr ++ t) r.
Proof.
  induction p as [a|X e k IH]; intros tr m m' r Hw Hr; cbn [run wp] in *.
  - inversion Hr; subst. exists []. rewrite !app_nil_r. split; [reflexivity|exact Hw].
  - destruct Hw as [_ Hk].
    destruct (handle connect exec e m) as [[x m1]|] eqn:Hh; [|discriminate].
    destruct (IH x _ _ _ _ (Hk x) Hr) as (t & Ht & HQ).
    exists (Obs e x :: t). split.
    + rewrite Ht. cbn [log trace]. rewrite (handle_trace e m Hh), <- app_assoc.
      reflexivity.
    + replace (tr ++ Obs e x :: t) with ((tr ++ [Obs e x]) ++ t)
        by (rewrite <- app_assoc; reflexivity).
      exact HQ.
Qed.

Lemma Pause_error_paths : wp any_event error_has_cause [] Pause.
Proof.
  unfold error_has_cause, any_event. walk_paths; try exact I; try discriminate;
    intros err H; inversion H; subst;
    match goal with
    | |- exists _ _ _, ?l = _ /\ _ =>
        exists (removelast l), (last l (Obs (Sleep 0) tt))
    end;
    cbn; eexists; (split; [reflexivity|]); (split; [reflexivity|]);
    rewrite ?errors_Is_refl; cbn; rewrite ?errors_Is_refl, ?orb_true_r; reflexivity.
Qed.

Lemma Resume_error_paths : wp any_event error_has_cause [] Resume.
Proof.
  unfold error_has_cause, any_event. walk_paths; try exact I; try discriminate;
    intros err H; inversion H; subst;
    match goal with
    | |- exists _ _ _, ?l = _ /\ _ =>
        exists (removelast l), (last l (Obs (Sleep 0) tt))
    end;
    cbn; eexists; (split; [reflexivity|]); (split; [reflexivity|]);
    rewrite ?errors_Is_refl; cbn; rewrite ?errors_Is_refl, ?orb_true_r; reflexivity.
Qed.

Lemma Pause_connection_paths :
  wp any_event (fun t (_ : option error) => one_connection "PAUSE" t) [] Pause.
Proof.
  unfold one_connection, any_event. walk_paths; try exact I;
    (eexists; split; [reflexivity|]); cbn; intros d' q' a' H;
    repeat (destruct H as [H|H]; [inversion H; split; reflexivity|]);
    destruct H.
Qed.

Lemma Resume_connection_paths :
  wp any_event (fun t (_ : option error) => one_connection "RESUME" t) [] Resume.
Proof.
  unfold one_connection, any_event. walk_paths; try exact I;
    (eexists; split; [reflexivity|]); cbn; intros d' q' a' H;
    repeat (destruct H as [H|H]; [inversion H; split; reflexivity|]);
    destruct H.
Qed.
End SingleCalls.

Section SingleCallProps.
Variable W : Type.
Variable connect : ConnectionPool -> string -> W -> (DB + error) * W.
Variable exec : DB -> string -> W -> option error * W.

(** An error return is the failure of the last effect.  [Pause] and
    [Resume] always return; when they return an error, the last effect they
    made is a connection request or a command that failed, nothing was done
    after it, and the error of that effect is the cause ([errors.Is]) of
    the error returned. *)
Theorem returned_error_is_last_failure (m : Machine W) :
  mu_free (inst m) ->
  (exists r m' t,
      run connect exec Pause m = Some (r, m') /\
      trace m' = trace m ++ t /\
      error_has_cause t r) /\
  (exists r m' t,
      run connect exec Resume m = Some (r, m') /\
      trace m' = trace m ++ t /\
      error_has_cause t r).
Proof.
  intros Hf. split.
  - destruct (Pause_spec connect exec m Hf) as (r & m' & Hrun & _).
    destruct (wp_run connect exec _ _ Pause [] m Pause_error_paths Hrun)
      as (t & Ht & HQ).
    exists r, m', t. repeat split; assumption.
  - destruct (Resume_spec connect exec m Hf) as (r & m' & Hrun & _).
    destruct (wp_run connect exec _ _ Resume [] m Resume_error_paths Hrun)
      as (t & Ht & HQ).
    exists r, m', t. repeat split; assumption.
Qed.

(** One connection per call.  Whatever happens, [Pause] and [Resume] ask
    the pool exactly once, for "pgbouncer"; every command they execute,
    retries included, is the method's own and goes to the handle that one
    request returned. *)
Theorem one_connection_per_call (m : Machine W) :
  mu_free (inst m) ->
  (exists r m' t,
      run connect exec Pause m = Some (r, m') /\
      trace m' = trace m ++ t /\
      one_connection "PAUSE" t) /\
  (exists r m' t,
      run connect exec Resume m = Some (r, m') /\
      trace m' = trace m ++ t /\
      one_connection "RESUME" t).
Proof.
  intros Hf. split.
  - destruct (Pause_spec connect exec m Hf) as (r & m' & Hrun & _).
    destruct (wp_run connect exec _ _ Pause [] m Pause_connection_paths Hrun)
      as (t & Ht & HQ).
    exists r, m', t. repeat split; assumption.
  - destruct (Resume_spec connect exec m Hf) as (r & m' & Hrun & _).
    destruct (wp_run connect exec _ _ Resume [] m Resume_connection_paths Hrun)
      as (t & Ht & HQ).
    exists r, m', t. repeat split; assumption.
Qed.

Lemma inst_eq (p p' : pgBouncerInstance) (b : bool) :
  mu_free p -> mu_free p' -> pool p' = pool p -> paused p' = b ->
  p' = set_paused p b.
Proof.
  intros Hf Hf' Hp Hb. apply mu_free_eq in Hf, Hf'.
  destruct p as [mx c pl], p' as [mx' c' pl']. cbn in *. subst.
  reflexivity.
Qed.

Lemma run_calls_inst (cs : list call) :
  forall m : Machine W,
    mu_free (inst m) ->
    exists h m',
      run_calls connect exec cs m = Some (h, m') /\
      map fst h = cs /\
      mu_free (inst m') /\
      inst m' = set_paused (inst m) (flag_after (paused (inst m)) h).
Proof.
  induction cs as [|c cs IH]; intros m Hf.
  - exists [], m. repeat split; try apply Hf.
    destruct (inst m) as [mx b pl]. reflexivity.
  - destruct (call_spec connect exec m c Hf) as (r & m1 & Hrun & Hf1 & Hpl & Hp & _).
    destruct (IH m1 Hf1) as (h & m2 & Hruns & Hmap & Hf2 & Hi).
    exists ((c, r) :: h), m2. cbn [run_calls]. rewrite Hrun, Hruns.
    split; [reflexivity|]. split; [cbn; now rewrite Hmap|]. split; [exact Hf2|].
    rewrite Hi. cbn [flag_after fold_left]. rewrite <- Hp.
    rewrite (@inst_eq (inst m) (inst m1) (paused (inst m1)) Hf Hf1 Hpl eq_refl).
    reflexivity.
Qed.

(** The last success wins.  After any sequence of calls the instance is
    the one before the calls except for the flag, which is true if the last
    call that returned nil is a [Pause], false if it is a [Resume], and
    unchanged if no [Pause] or [Resume] returned nil. *)
Theorem instance_after_calls (m : Machine W) (cs : list call) :
  mu_free (inst m) ->
  exists h m',
    run_calls connect exec cs m = Some (h, m') /\
    map fst h = cs /\
    inst m' = set_paused (inst m) (flag_after (paused (inst m)) h).
Proof.
  intros Hf.
  destruct (run_calls_inst cs m Hf) as (h & m' & Hrun & Hmap & _ & Hi).
  exists h, m'. repeat split; assumption.
Qed.
End SingleCallProps.

(** ** Further properties of interleaved runs *)

Lemma mode_eqb_eq (a b : mode) : mode_eqb a b = true <-> a = b.
Proof. destruct a, b; cbn; split; intro H; try reflexivity; discriminate. Qed.

Lemma holders_ex (h : mode) (ts : list thread) :
  1 <= holders h ts -> exists i t, nth_error ts i = Some t /\ held t = h.
Proof.
  induction ts as [|a ts IH]; cbn [holders]; intro H; [lia|].
  destruct (mode_eqb (held a) h) eqn:Ha.
  - exists 0, a. split; [reflexivity|]. apply mode_eqb_eq, Ha.
  - destruct (IH ltac:(lia)) as (i & t & Hi & Ht). exists (S i), t. split; assumption.
Qed.

Lemma holders_zero (h : mode) (ts : list thread) :
  holders h ts = 0 -> forall i t, nth_error ts i = Some t -> held t <> h.
Proof.
  intros H i t Hi Hh. pose proof (holders_pos ts i Hi Hh). lia.
Qed.

Lemma not_all_returned (ts : list thread) :
  forallb returned ts = false ->
  exists i t, nth_error ts i = Some t /\ returned t = false.
Proof.
  induction ts as [|a ts IH]; cbn [forallb]; intro H; [discriminate|].
  destruct (returned a) eqn:Ha.
  - destruct (IH H) as (i & t & Hi & Ht). exists (S i), t. split; assumption.
  - exists 0, a. split; [reflexivity|exact Ha].
Qed.

Section Interleavings.
Variable W : Type.
Variable connect : ConnectionPool -> string -> W -> (DB + error) * W.
Variable exec : DB -> string -> W -> option error * W.

Lemma Inv_all_returned_free (c : Config W) :
  Inv c -> forallb returned (threads c) = true -> mu_free (inst (shared c)).
Proof.
  intros [Hd Hm] Hret.
  assert (Hfree : forall h, h <> Free -> holders h (threads c) = 0).
  { intros h Hh. apply holders_none. intros j t Hj.
    assert (Ht : held t = Free).
    { pose proof Hj as Hin. apply nth_error_In in Hin.
      eapply Forall_forall in Hd; [|exact Hin].
      rewrite forallb_forall in Hret. specialize (Hret t Hin).
      unfold returned in Hret. destruct (code t); [exact Hd|discriminate]. }
    rewrite Ht. destruct h; [contradiction| |]; reflexivity. }
  unfold mutex_agrees in Hm.
  rewrite (Hfree HoldW), (Hfree HoldR) in Hm by discriminate.
  destruct Hm as [(_ & H & _)|(Hw & _ & Hr)]; [discriminate|]. split; assumption.
Qed.

(** No lock is left behind.  Whatever the interleaving, once all the
    goroutines have returned the mutex is free. *)
Theorem mutex_free_when_all_returned (m0 : Machine W) (callss : list (list call))
    (sched : list nat) (c : Config W) :
  mu_free (inst m0) ->
  steps connect exec sched (init m0 callss) = Some c ->
  forallb returned (threads c) = true ->
  mu_free (inst (shared c)).
Proof.
  intros Hf Hs. apply Inv_all_returned_free.
  eapply Inv_steps; [|exact Hs]. apply Inv_init. exact Hf.
Qed.

(** The flag does not change under a reader.  In every reachable state,
    while some goroutine holds the read lock (it is inside [Paused]), no
    step of any goroutine changes the flag. *)
Theorem flag_stable_under_read_lock (m0 : Machine W) (callss : list (list call))
    (sched : list nat) (c c' : Config W) (i j : nat) (t : thread) :
  mu_free (inst m0) ->
  steps connect exec sched (init m0 callss) = Some c ->
  nth_error (threads c) i = Some t ->
  held t = HoldR ->
  step connect exec j c = Some c' ->
  paused (inst (shared c')) = paused (inst (shared c)).
Proof.
  intros Hf Hs. apply Inv_reader_sees_stable_flag.
  eapply Inv_steps; [|exact Hs]. apply Inv_init. exact Hf.
Qed.
End Interleavings.

(** *** Bounded work *)

Lemma height_le_mono {R : Type} (p : prog R) :
  forall n n', n <= n' -> height_le n p -> height_le n' p.
Proof.
  induction p as [r|X e k IH]; intros n n' Hle H; cbn [height_le] in *; [exact I|].
  destruct n as [|n]; [contradiction|]. destruct n' as [|n']; [lia|].
  intro x. apply (IH x n n'); [lia|apply H].
Qed.

Lemma height_le_bind {A B : Type} (p : prog A) (f : A -> prog B) (k : nat) :
  forall n,
    height_le n p -> (forall a, height_le k (f a)) -> height_le (n + k) (bind p f).
Proof.
  induction p as [a|X e c IH]; intros n Hp Hf; cbn [bind height_le] in *.
  - apply (@height_le_mono _ (f a) k _); [lia|apply Hf].
  - destruct n as [|n]; [contradiction|]. cbn [Nat.add].
    intro x. apply IH; [apply Hp|exact Hf].
Qed.

Lemma height_le_loop {St : Type}
    (condition : St -> prog (St * (bool * option error))) :
  (forall st, height_le 1 (condition st)) ->
  forall fuel b st,
    height_le (2 * fuel) (ExponentialBackoff_loop fuel b condition st).
Proof.
  intros Hc. induction fuel as [|fuel IH]; intros b st; cbn [ExponentialBackoff_loop].
  - exact I.
  - destruct (0 <? Steps b)%Z; [|exact I].
    apply (@height_le_mono _ _ (1 + (1 + 2 * fuel)) _); [lia|].
    apply height_le_bind; [apply Hc|].
    intros [st' [ok [e|]]]; [exact I|].
    destruct ok; [exact I|]. destruct (Steps b =? 1)%Z; [exact I|].
    destruct (Backoff_Step b) as [d b'].
    apply height_le_bind; [cbn; intro; exact I|]. intros _. apply IH.
Qed.

Lemma height_le_OnError (b : Backoff) (retriable : error -> bool)
    (fn : prog (option error)) :
  height_le 1 fn ->
  height_le (2 * Z.to_nat (Steps b)) (OnError b retriable fn).
Proof.
  intro Hfn. unfold OnError, ExponentialBackoff.
  apply (@height_le_mono _ _ (2 * Z.to_nat (Steps b) + 0) _); [lia|].
  apply height_le_bind.
  - apply height_le_loop. intro st.
    apply (height_le_bind fn _ 0 1 Hfn).
    intros [e|]; [destruct (retriable e)|]; exact I.
  - intros [lastErr [[| |msg|ctx inner]|]]; exact I.
Qed.

Lemma height_le_call (c : call) : height_le call_bound (call_prog c).
Proof.
  assert (HP : height_le call_bound Pause).
  { unfold Pause. apply (@height_le_mono _ _ (1 + (2 * budget + 3)) _);
      [unfold call_bound; lia|].
    apply height_le_bind; [cbn; intro; exact I|].
    intros [db|e]; [|exact I].
    apply height_le_bind.
    - apply height_le_OnError. cbn. intro. exact I.
    - intros [e|]; cbn; intros; exact I. }
  assert (HR : height_le call_bound Resume).
  { apply (@height_le_mono _ _ 5 _); [unfold call_bound; rewrite budget_value; lia|].
    cbn. intros [db|e]; [|exact I]. intros [e|]; cbn; intros; exact I. }
  assert (HQ : height_le call_bound Paused).
  { apply (@height_le_mono _ _ 3 _); [unfold call_bound; lia|]. cbn. intros. exact I. }
  destruct c; cbn [call_prog];
    apply (@height_le_mono _ _ (call_bound + 0) _); try lia;
    apply height_le_bind; try assumption; intro; exact I.
Qed.

Lemma height_le_thread (cs : list call) :
  height_le (call_bound * List.length cs) (thread_prog cs).
Proof.
  induction cs as [|c cs IH]; cbn [thread_prog List.length]; [exact I|].
  apply (@height_le_mono _ _ (call_bound + (call_bound * List.length cs + 0)) _); [lia|].
  apply height_le_bind; [apply height_le_call|]. intro r.
  apply height_le_bind; [exact IH|]. intro rs. exact I.
Qed.

Lemma Forall2_upd {A B : Type} (P : A -> B -> Prop) (l1 : list A) (l2 : list B) :
  Forall2 P l1 l2 ->
  forall i a b, P a b -> Forall2 P (upd i a l1) (upd i b l2).
Proof.
  induction 1 as [|x y l1 l2 Hxy Hl IH]; intros [|i] a b Hab; cbn [upd];
    constructor; try assumption.
  apply IH, Hab.
Qed.

Lemma Forall2_height_step (ns : list nat) (ts : list thread) :
  Forall2 (fun n t => height_le n (code t)) ns ts ->
  forall i h X (e : event X) k,
    nth_error ts i = Some {| held := h; code := Vis e k |} ->
    exists n, nth_error ns i = Some (S n) /\ forall x, height_le n (k x).
Proof.
  induction 1 as [|n t ns ts Hnt Hl IH]; intros [|i] h X e k Hi; cbn in Hi;
    try discriminate.
  - inversion Hi; subst t. cbn [code height_le] in Hnt.
    destruct n as [|n]; [contradiction|]. exists n. split; [reflexivity|exact Hnt].
  - apply (IH i h X e k Hi).
Qed.

Lemma list_sum_upd (l : list nat) :
  forall i n, nth_error l i = Some (S n) -> list_sum l = S (list_sum (upd i n l)).
Proof.
  induction l as [|a l IH]; intros [|i] n H; cbn in H; try discriminate.
  - inversion H; subst. reflexivity.
  - cbn [upd]. pose proof (IH i n H) as E. unfold list_sum in *.
    cbn [fold_right]. lia.
Qed.

Section Bounds.
Variable W : Type.
Variable connect : ConnectionPool -> string -> W -> (DB + error) * W.
Variable exec : DB -> string -> W -> option error * W.

Lemma steps_bounded (sched : list nat) :
  forall (c c' : Config W) (ns : list nat),
    Forall2 (fun n t => height_le n (code t)) ns (threads c) ->
    steps connect exec sched c = Some c' ->
    List.length sched <= list_sum ns.
Proof.
  induction sched as [|i sched IH]; intros c c' ns Hns Hs; cbn [steps List.length] in *.
  - lia.
  - destruct (step connect exec i c) as [c1|] eqn:H1; [|discriminate].
    unfold step in H1.
    destruct (nth_error (threads c) i) as [[h p]|] eqn:Hi; [|discriminate].
    cbn [code held] in H1. destruct p as [r|X e k]; [discriminate|].
    destruct (handle connect exec e (shared c)) as [[x m']|]; [|discriminate].
    inversion H1; subst c1; clear H1.
    destruct (Forall2_height_step Hns i Hi) as (n & Hn & Hk).
    rewrite (list_sum_upd ns i Hn).
    apply le_n_S. eapply (IH _ c' (upd i n ns)); [|exact Hs].
    cbn [threads]. apply Forall2_upd; [exact Hns|]. cbn [code]. apply Hk.
Qed.

(** Bounded work.  Whatever the schedule and the answers of the pool and of
    pgbouncer, the goroutines together make at most [call_bound] effects
    for each call: no call can go on for ever. *)
Theorem schedule_bounded (m0 : Machine W) (callss : list (list call))
    (sched : list nat) (c : Config W) :
  steps connect exec sched (init m0 callss) = Some c ->
  List.length sched <= call_bound * List.length (List.concat callss).
Proof.
  intro Hs.
  assert (Hsum : list_sum (map (fun cs => call_bound * List.length cs) callss)
                 = call_bound * List.length (List.concat callss)).
  { clear. induction callss as [|cs l IH]; cbn [map List.concat List.length]; [cbn; lia|].
    rewrite length_app. unfold list_sum in *. cbn [fold_right]. lia. }
  rewrite <- Hsum. apply (@steps_bounded sched (init m0 callss) c); [|exact Hs].
  cbn [init threads]. clear. induction callss as [|cs l IH]; cbn [map]; constructor.
  - cbn [code]. apply height_le_thread.
  - exact IH.
Qed.
End Bounds.

(** *** Writes of the flag under interleaving *)

Lemma accepted_incl (b : bool) (t t' : list obs) :
  incl t t' -> accepted b t -> accepted b t'.
Proof.
  unfold accepted. intros Hi H. apply existsb_exists in H as (o & Ho & Ha).
  apply existsb_exists. exists o. split; [apply Hi, Ho|exact Ha].
Qed.

Lemma wp_justified_incl {R : Type} (p : prog R) :
  forall tr tr',
    incl tr tr' ->
    wp store_justified any_result tr p -> wp store_justified any_result tr' p.
Proof.
  induction p as [r|X e k IH]; intros tr tr' Hi H; cbn [wp] in *; [exact I|].
  destruct H as [He Hk]. split.
  - destruct e; try exact I. cbn [store_justified] in *.
    eapply accepted_incl; eassumption.
  - intro x. apply (IH x (tr ++ [Obs e x])); [|apply Hk].
    apply incl_app; [apply incl_appl, Hi|apply incl_appr, incl_refl].
Qed.

Ltac accepted_now :=
  unfold accepted; rewrite ?existsb_app; cbn;
  repeat match goal with
         | |- context [existsb ?f ?l] => destruct (existsb f l)
         end;
  reflexivity.

Lemma Pause_justified (tr : list obs) : wp store_justified any_result tr Pause.
Proof. unfold any_result. walk_paths; try exact I; accepted_now. Qed.

Lemma Resume_justified (tr : list obs) : wp store_justified any_result tr Resume.
Proof. unfold any_result. walk_paths; try exact I; accepted_now. Qed.

Lemma thread_justified (cs : list call) :
  forall tr, wp store_justified any_result tr (thread_prog cs).
Proof.
  induction cs as [|c cs IH]; intro tr; cbn [thread_prog]; [exact I|].
  apply wp_bind.
  apply (@wp_weaken _ store_justified any_result).
  - intros tr' r _. apply wp_bind.
    apply (@wp_weaken _ store_justified any_result); [|apply IH].
    intros tr'' rs _. exact I.
  - destruct c; cbn [call_prog]; apply wp_bind.
    + cbn. repeat split.
    + apply (@wp_weaken _ store_justified any_result); [|apply Pause_justified].
      intros tr' r _. exact I.
    + apply (@wp_weaken _ store_justified any_result); [|apply Resume_justified].
      intros tr' r _. exact I.
Qed.

Lemma snoc_split {A : Type} (t t1 t2 : list A) (o o' : A) :
  t ++ [o] = t1 ++ o' :: t2 ->
  (t2 = [] /\ t1 = t /\ o' = o) \/
  (exists t2', t2 = t2' ++ [o] /\ t = t1 ++ o' :: t2').
Proof.
  intro H. destruct t2 as [|a l] using rev_ind.
  - left. apply app_inj_tail in H as [-> ->]. repeat split.
  - right. clear IHl. exists l.
    replace (t1 ++ o' :: l ++ [a]) with ((t1 ++ o' :: l) ++ [a]) in H
      by (rewrite <- app_assoc; reflexivity).
    apply app_inj_tail in H as [-> ->]. split; reflexivity.
Qed.

Section Writes.
Variable W : Type.
Variable connect : ConnectionPool -> string -> W -> (DB + error) * W.
Variable exec : DB -> string -> W -> option error * W.

Lemma writes_justified_init (m0 : Machine W) (callss : list (list call)) :
  writes_justified m0 (init m0 callss).
Proof.
  exists []. cbn [init shared threads]. split; [now rewrite app_nil_r|]. split.
  - apply Forall_forall. intros th Hth. apply in_map_iff in Hth as (cs & <- & _).
    apply thread_justified.
  - split; [|left; reflexivity].
    intros t1 o t2 b H. destruct t1; discriminate H.
Qed.

Lemma writes_justified_step (m0 : Machine W) (c c' : Config W) (i : nat) :
  writes_justified m0 c -> step connect exec i c = Some c' -> writes_justified m0 c'.
Proof.
  intros (t & Ht & Hth & Hst & Hfl) Hs. unfold step in Hs.
  destruct (nth_error (threads c) i) as [[h p]|] eqn:Hi; [|discriminate].
  cbn [code held] in Hs. destruct p as [r|X e k]; [discriminate|].
  destruct (handle connect exec e (shared c)) as [[x m']|] eqn:Hh; [|discriminate].
  inversion Hs; subst c'; clear Hs.
  assert (Hw : wp store_justified any_result t (Vis e k)).
  { eapply Forall_forall in Hth; [|eapply nth_error_In, Hi]. exact Hth. }
  destruct Hw as [He Hk].
  exists (t ++ [Obs e x]). cbn [shared threads log trace inst].
  split; [rewrite (handle_trace connect exec e (shared c) Hh), Ht, app_assoc; reflexivity|].
  split; [|split].
  - apply Forall_upd; [|apply Hk].
    eapply Forall_impl; [|exact Hth]. intros th Hw.
    eapply wp_justified_incl; [|exact Hw]. apply incl_appl, incl_refl.
  - intros t1 o t2 b Heq Hb.
    destruct (@snoc_split _ t t1 t2 _ _ Heq) as [(-> & -> & ->)|(t2' & -> & ->)].
    + destruct e; try discriminate Hb. cbn in Hb. inversion Hb; subst b0. exact He.
    + eapply Hst; [reflexivity|exact Hb].
  - destruct (is_store e) eqn:Hse.
    + right. destruct e; try discriminate Hse. cbn in Hh. inversion Hh; subst.
      cbn. eapply accepted_incl; [|exact He]. apply incl_appl, incl_refl.
    + rewrite (handle_keeps_flag connect exec e (shared c) Hh Hse).
      destruct Hfl as [Hfl|Hfl]; [left; exact Hfl|right].
      eapply accepted_incl; [|exact Hfl]. apply incl_appl, incl_refl.
Qed.

Lemma writes_justified_steps (m0 : Machine W) (sched : list nat) :
  forall c c' : Config W,
    writes_justified m0 c -> steps connect exec sched c = Some c' ->
    writes_justified m0 c'.
Proof.
  induction sched as [|i sched IH]; intros c c' Hj Hs; cbn [steps] in Hs.
  - inversion Hs; subst. exact Hj.
  - destruct (step connect exec i c) as [c1|] eqn:H1; [|discriminate].
    eapply IH; [|exact Hs]. eapply writes_justified_step; eassumption.
Qed.

(** The flag follows pgbouncer under any interleaving.  Whatever the
    schedule, every write of the flag made since the start comes after a
    [db.Exec] of the matching command ("PAUSE" for true, "RESUME" for false)
    that answered nil; and if the flag differs from what it was at the
    start, the command for its present value has been accepted. *)
Theorem flag_writes_follow_accepted_commands (m0 : Machine W)
    (callss : list (list call)) (sched : list nat) (c : Config W) :
  steps connect exec sched (init m0 callss) = Some c ->
  exists t,
    trace (shared c) = trace m0 ++ t /\
    stores_follow_accepts t /\
    (paused (inst (shared c)) <> paused (inst m0) ->
     accepted (paused (inst (shared c))) t).
Proof.
  intro Hs.
  destruct (@writes_justified_steps m0 sched (init m0 callss) c
              (writes_justified_init m0 callss) Hs) as (t & Ht & _ & Hst & Hfl).
  exists t. split; [exact Ht|]. split; [exact Hst|].
  intro Hne. destruct Hfl as [Hfl|Hfl]; [contradiction|exact Hfl].
Qed.
End Writes.

(** *** The two ends of the retry loop *)

Section RetryEnds.
Variable W : Type.
Variable connect : ConnectionPool -> string -> W -> (DB + error) * W.
Variable exec : DB -> string -> W -> option error * W.

(** Every [db.Exec] of a trace is an answer of the environment. *)
Lemma run_exec_faithful {R : Type} (p : prog R) :
  forall (m m' : Machine W) r,
    run connect exec p m = Some (r, m') ->
    exists t,
      trace m' = trace m ++ t /\
      forall d q a, In (d, q, a) (exec_calls t) -> exists w0, fst (exec d q w0) = a.
Proof.
  induction p as [a|X e k IH]; intros m m' r Hr; cbn [run] in Hr.
  - inversion Hr; subst. exists []. split; [now rewrite app_nil_r|].
    intros d q a0 [].
  - destruct (handle connect exec e m) as [[x m1]|] eqn:Hh; [|discriminate].
    destruct (IH x _ _ _ Hr) as (t & Ht & Hex).
    exists (Obs e x :: t). split.
    + rewrite Ht. cbn [log trace]. rewrite (handle_trace connect exec e m Hh), <- app_assoc.
      reflexivity.
    + intros d q a0 Hin. destruct e; cbn [exec_calls] in Hin; try (apply Hex, Hin).
      destruct Hin as [Heq|Hin]; [|apply Hex, Hin].
      inversion Heq; subst. cbn [handle] in Hh.
      exists (world m). destruct (exec d q (world m)) as [r0 w0].
      inversion Hh. reflexivity.
Qed.

(** pgbouncer is ready.  When the connection is made and the first
    [db.Exec] answers nil, [Pause] returns nil having made that one attempt
    and no sleep: connection, command, lock, write of the flag, unlock. *)
Theorem Pause_first_attempt_success (m : Machine W) (db : DB) (w w' : W) :
  mu_free (inst m) ->
  connect (pool (inst m)) "pgbouncer" (world m) = (inl db, w) ->
  exec db "PAUSE" w = (None, w') ->
  run connect exec Pause m =
  Some (None,
        {| inst := set_paused (inst m) true; world := w';
           trace := trace m ++ Obs (PoolConnection "pgbouncer") (inl db) ::
                      Obs (DbExec db "PAUSE") None :: flag_update true |}).
Proof.
  intros Hf Hc He. apply mu_free_eq in Hf.
  destruct m as [[mx b pl] w0 tr]. cbn in Hf, Hc. subst mx.
  unfold Pause, OnError, ExponentialBackoff.
  change (Z.to_nat (Steps DefaultBackoff)) with 4.
  cbn -[Pause_retriable]. rewrite Hc. cbn -[Pause_retriable]. rewrite He.
  machine_simpl. rewrite <- !app_assoc. reflexivity.
Qed.

(** pgbouncer never accepts.  When the connection is made and no state of
    the environment lets "PAUSE" on that handle answer nil, [Pause] makes
    exactly [budget] attempts, returns an error and leaves the instance as
    it was. *)
Theorem Pause_gives_up_after_budget (m : Machine W) (db : DB) (w : W) :
  mu_free (inst m) ->
  connect (pool (inst m)) "pgbouncer" (world m) = (inl db, w) ->
  (forall w0, fst (exec db "PAUSE" w0) <> None) ->
  exists e m' t,
    run connect exec Pause m = Some (Some e, m') /\
    trace m' = trace m ++ Obs (PoolConnection "pgbouncer") (inl db) :: t /\
    List.length (exec_calls t) = budget /\
    inst m' = inst m.
Proof.
  intros Hf Hc Hno.
  destruct (Pause_spec connect exec m Hf) as (r & m' & Hrun & Hout).
  destruct (run_exec_faithful Pause m Hrun) as (t1 & Ht1 & Hfaith).
  destruct Hout as [e w' Hc'|db' w' errs e t m' Hc' Hi Ht Hn He Hl
                   |db' w' errs t0 m' Hc' Hi Ht Hn He Hl];
    rewrite Hc in Hc'; inversion Hc'; subst db' w'.
  - exists e, m', t. repeat split; try assumption.
    rewrite He, length_map. exact Hl.
  - exfalso. rewrite Ht in Ht1. apply app_inv_head in Ht1. subst t1.
    destruct (Hfaith db "PAUSE" None) as (w0 & Hw0); [|exact (Hno w0 Hw0)].
    cbn [exec_calls]. rewrite exec_calls_app. apply in_or_app. right.
    left. reflexivity.
Qed.
End RetryEnds.

(** *** The mutex as Go implements it *)

Lemma length_upd {A : Type} (l : list A) :
  forall i x, List.length (upd i x l) = List.length l.
Proof.
  induction l as [|a l IH]; intros [|i] x; cbn; try reflexivity.
  now rewrite IH.
Qed.

Lemma nth_error_upd_inv {A : Type} (l : list A) :
  forall i j x w,
    nth_error (upd i x l) j = Some w ->
    (j = i /\ w = x) \/ (j <> i /\ nth_error l j = Some w).
Proof.
  induction l as [|a l IH]; intros [|i] [|j] x w H; cbn in H; try discriminate.
  - left. inversion H. split; reflexivity.
  - right. split; [discriminate|exact H].
  - right. split; [discriminate|exact H].
  - destruct (IH i j x w H) as [[-> ->]|[Hne Hj]].
    + left. split; reflexivity.
    + right. split; [intro E; apply Hne; now inversion E|exact Hj].
Qed.

Lemma wait_eqb_eq (a b : wait) : wait_eqb a b = true <-> a = b.
Proof. destruct a, b; cbn; split; intro H; try reflexivity; discriminate. Qed.

Lemma announced_exists (ws : list wait) :
  existsb (wait_eqb Announced) ws = true <->
  exists j, nth_error ws j = Some Announced.
Proof.
  rewrite existsb_exists. split.
  - intros (x & Hin & Hx). apply wait_eqb_eq in Hx. subst x.
    apply In_nth_error in Hin. exact Hin.
  - intros (j & Hj). exists Announced. split; [eapply nth_error_In, Hj|reflexivity].
Qed.

Lemma parked_ids_spec (ws : list wait) (j : nat) :
  In j (parked_ids ws) <-> nth_error ws j = Some Parked.
Proof.
  unfold parked_ids. rewrite filter_In, in_seq. split.
  - intros [_ H]. destruct (nth_error ws j) as [[| |]|]; try discriminate H. reflexivity.
  - intro H. split; [|now rewrite H].
    split; [lia|]. cbn. apply nth_error_Some. rewrite H. discriminate.
Qed.

Lemma parked_ids_NoDup (ws : list wait) : NoDup (parked_ids ws).
Proof. apply NoDup_filter, seq_NoDup. Qed.

Section GoMutex.
Variable W : Type.
Variable connect : ConnectionPool -> string -> W -> (DB + error) * W.
Variable exec : DB -> string -> W -> option error * W.

Lemma step_shape (i : nat) (c c' : Config W) :
  step connect exec i c = Some c' ->
  exists h X (e : event X) k x m',
    nth_error (threads c) i = Some {| held := h; code := Vis e k |} /\
    handle connect exec e (shared c) = Some (x, m') /\
    c' = {| shared := log m' (Obs e x);
            threads := upd i {| held := next_mode e h; code := k x |} (threads c) |}.
Proof.
  unfold step. intro Hs.
  destruct (nth_error (threads c) i) as [[h p]|]; [|discriminate].
  cbn [code held] in Hs. destruct p as [r|X e k]; [discriminate|].
  destruct (handle connect exec e (shared c)) as [[x m']|] eqn:Hh; [|discriminate].
  inversion Hs. exists h, X, e, k, x, m'. repeat split. exact Hh.
Qed.

Lemma step_enabled (i : nat) (c : Config W) (h : mode) (X : Type) (e : event X)
    (k : X -> prog (list result)) :
  nth_error (threads c) i = Some {| held := h; code := Vis e k |} ->
  (exists x m', handle connect exec e (shared c) = Some (x, m')) ->
  exists c', step connect exec i c = Some c'.
Proof.
  intros Hi (x & m' & Hh). unfold step. rewrite Hi. cbn [code]. rewrite Hh.
  eexists. reflexivity.
Qed.

Lemma handle_writer {X : Type} (e : event X) (x : X) (m m' : Machine W) :
  handle connect exec e m = Some (x, m') ->
  writer (mu (inst m')) =
  is_lock e || (negb (is_unlock e) && writer (mu (inst m))).
Proof.
  destruct e; cbn [handle is_lock is_unlock]; intros H;
    repeat match type of H with
           | context [connect ?p ?n ?w] => destruct (connect p n w)
           | context [exec ?d ?t ?w] => destruct (exec d t w)
           | context [if ?b then _ else _] => destruct b eqn:?
           | context [match ?n with O => _ | S _ => _ end] => destruct n
           end;
    try discriminate H; inversion H; cbn; try reflexivity; assumption.
Qed.

Lemma step_length (i : nat) (c c' : Config W) :
  step connect exec i c = Some c' ->
  List.length (threads c') = List.length (threads c).
Proof.
  intro Hs. destruct (step_shape i c Hs) as (h & X & e & k & x & m' & _ & _ & ->).
  apply length_upd.
Qed.

Lemma steps_length (sched : list nat) :
  forall c c' : Config W,
    steps connect exec sched c = Some c' ->
    List.length (threads c') = List.length (threads c).
Proof.
  induction sched as [|i sched IH]; intros c c' Hs; cbn [steps] in Hs.
  - inversion Hs. reflexivity.
  - destruct (step connect exec i c) as [c1|] eqn:H1; [|discriminate].
    rewrite (IH _ _ Hs). eapply step_length, H1.
Qed.

Lemma steps_app (s1 s2 : list nat) :
  forall c : Config W,
    steps connect exec (s1 ++ s2) c =
    match steps connect exec s1 c with
    | Some c1 => steps connect exec s2 c1
    | None => None
    end.
Proof.
  induction s1 as [|i s1 IH]; intro c; cbn [app steps]; [reflexivity|].
  destruct (step connect exec i c); [apply IH|reflexivity].
Qed.

(** Every move the Go mutex allows is made of moves of [step]. *)
Lemma gstep_sim (i : nat) (g g' : GoConfig W) :
  gstep connect exec i g = Some g' ->
  exists sched, steps connect exec sched (base g) = Some (base g').
Proof.
  unfold gstep. intro Hs.
  destruct (nth_error (threads (base g)) i) as [t|]; [|discriminate].
  destruct (nth_error (waits g) i) as [[| |]|]; try discriminate.
  - destruct (head_is (@is_lock) t).
    { destruct (writer_present g); [discriminate|].
      inversion Hs. exists []. reflexivity. }
    destruct (head_is (@is_rlock) t).
    { destruct (writer_present g).
      - inversion Hs. exists []. reflexivity.
      - destruct (step connect exec i (base g)) as [c|] eqn:H1; [|discriminate].
        inversion Hs. exists [i]. cbn [steps]. rewrite H1. reflexivity. }
    destruct (head_is (@is_unlock) t).
    { destruct (step connect exec i (base g)) as [c|] eqn:H1; [|discriminate].
      destruct (steps connect exec (parked_ids (waits g)) c) as [c'|] eqn:H2;
        [|discriminate].
      inversion Hs. exists (i :: parked_ids (waits g)).
      cbn [steps base]. rewrite H1. exact H2. }
    destruct (step connect exec i (base g)) as [c|] eqn:H1; [|discriminate].
    inversion Hs. exists [i]. cbn [steps]. rewrite H1. reflexivity.
  - destruct (readers (mu (inst (shared (base g))))); [|discriminate].
    destruct (step connect exec i (base g)) as [c|] eqn:H1; [|discriminate].
    inversion Hs. exists [i]. cbn [steps]. rewrite H1. reflexivity.
Qed.

Lemma gsteps_sim (sched : list nat) :
  forall g g' : GoConfig W,
    gsteps connect exec sched g = Some g' ->
    exists sched', steps connect exec sched' (base g) = Some (base g').
Proof.
  induction sched as [|i sched IH]; intros g g' Hs; cbn [gsteps] in Hs.
  - inversion Hs. exists []. reflexivity.
  - destruct (gstep connect exec i g) as [g1|] eqn:H1; [|discriminate].
    destruct (gstep_sim i g H1) as (s1 & Hs1).
    destruct (IH g1 g' Hs) as (s2 & Hs2).
    exists (s1 ++ s2). rewrite steps_app, Hs1. exact Hs2.
Qed.

(** Readers at their [RLock] all get the read lock when no writer holds
    the mutex. *)
Lemma release_ok (ids : list nat) :
  forall c : Config W,
    NoDup ids ->
    writer (mu (inst (shared c))) = false ->
    (forall j, In j ids ->
       exists t, nth_error (threads c) j = Some t /\ head_is (@is_rlock) t = true) ->
    exists c', steps connect exec ids c = Some c'.
Proof.
  induction ids as [|j ids IH]; intros c Hnd Hw Hall; cbn [steps].
  - eexists. reflexivity.
  - destruct (Hall j (or_introl eq_refl)) as ([h p] & Hj & Hh).
    unfold head_is in Hh. cbn [code] in Hh.
    destruct p as [r|X e k]; [discriminate Hh|].
    destruct e; try discriminate Hh.
    unfold step. rewrite Hj. cbn [code held handle]. rewrite Hw.
    inversion Hnd as [|? ? Hnin Hnd']; subst.
    apply IH; [exact Hnd'|reflexivity|].
    intros j' Hin. cbn [threads].
    rewrite nth_error_upd_other by (intro E; apply Hnin; now rewrite E).
    apply Hall. right. exact Hin.
Qed.
End GoMutex.

Section GoProgress.
Variable W : Type.
Variable connect : ConnectionPool -> string -> W -> (DB + error) * W.
Variable exec : DB -> string -> W -> option error * W.

Lemma step_facts (i : nat) (c c' : Config W) (t : thread) :
  step connect exec i c = Some c' ->
  nth_error (threads c) i = Some t ->
  (forall j, j <> i -> nth_error (threads c') j = nth_error (threads c) j) /\
  writer (mu (inst (shared c'))) =
    head_is (@is_lock) t ||
    (negb (head_is (@is_unlock) t) && writer (mu (inst (shared c)))).
Proof.
  unfold step. intros Hs Hi. rewrite Hi in Hs. destruct t as [h p].
  unfold head_is. cbn [code held] in *. destruct p as [r|X e k]; [discriminate|].
  destruct (handle connect exec e (shared c)) as [[x m']|] eqn:Hh; [|discriminate].
  inversion Hs; subst c'; clear Hs. cbn [threads shared log inst]. split.
  - intros j Hne. apply nth_error_upd_other. intro E. apply Hne. now rewrite E.
  - apply (handle_writer connect exec e (shared c) Hh).
Qed.

Lemma writer_present_false (g : GoConfig W) :
  writer_present g = false ->
  writer (mu (inst (shared (base g)))) = false /\
  forall j, nth_error (waits g) j <> Some Announced.
Proof.
  unfold writer_present. intro H. apply orb_false_elim in H as [Hw Ha].
  split; [exact Hw|]. intros j Hj.
  assert (E : existsb (wait_eqb Announced) (waits g) = true)
    by (apply announced_exists; exists j; exact Hj).
  rewrite E in Ha. discriminate.
Qed.

Lemma waits_ok_init (m : Machine W) (callss : list (list call)) :
  waits_ok (ginit m callss).
Proof.
  unfold waits_ok, ginit. cbn [base waits init threads].
  assert (H : forall i w, nth_error (map (fun _ : list call => Running) callss) i = Some w ->
                          w = Running).
  { intros i w Hi. apply nth_error_In, in_map_iff in Hi as (x & <- & _). reflexivity. }
  split; [now rewrite !length_map|]. split.
  - intros i Hi. apply H in Hi. discriminate.
  - intros i Hi. apply H in Hi. discriminate.
Qed.

Lemma waits_ok_gstep (g g' : GoConfig W) (i : nat) :
  waits_ok g -> gstep connect exec i g = Some g' -> waits_ok g'.
Proof.
  intros (Hlen & Hann & Hpark) Hs. unfold gstep in Hs.
  destruct (nth_error (threads (base g)) i) as [t|] eqn:Hi; [|discriminate].
  destruct (nth_error (waits g) i) as [w|] eqn:Hw; [|discriminate].
  destruct w; [| |discriminate].
  - destruct (head_is (@is_lock) t) eqn:Hl.
    { (* the writer announces itself *)
      destruct (writer_present g) eqn:Hwp; [discriminate|].
      inversion Hs; subst g'; clear Hs.
      destruct (writer_present_false g Hwp) as [Hwr Hnone].
      unfold waits_ok. cbn [base waits]. split; [now rewrite length_upd|]. split.
      - intros j Hj. apply nth_error_upd_inv in Hj as [[-> _]|[_ Hj]];
          [|exfalso; exact (Hnone j Hj)].
        split; [exists t; split; assumption|]. split; [exact Hwr|].
        intros j' Hj'. apply nth_error_upd_inv in Hj' as [[-> _]|[_ Hj']];
          [reflexivity|exfalso; exact (Hnone j' Hj')].
      - intros j Hj. apply nth_error_upd_inv in Hj as [[_ E]|[_ Hj]]; [discriminate E|].
        destruct (Hpark j Hj) as [_ Hp]. rewrite Hp in Hwp. discriminate. }
    destruct (head_is (@is_rlock) t) eqn:Hr.
    { destruct (writer_present g) eqn:Hwp.
      - (* the reader parks *)
        inversion Hs; subst g'; clear Hs.
        assert (Hwp' : writer_present
                         {| base := base g; waits := upd i Parked (waits g) |} = true).
        { unfold writer_present in *. cbn [base waits].
          apply orb_true_iff in Hwp as [Hwr|Ha]; [rewrite Hwr; reflexivity|].
          apply orb_true_iff. right. apply announced_exists.
          apply announced_exists in Ha as (a & Ha). exists a.
          rewrite nth_error_upd_other; [exact Ha|].
          intro E. subst a. rewrite Hw in Ha. discriminate. }
        unfold waits_ok. cbn [base waits]. split; [now rewrite length_upd|]. split.
        + intros j Hj. apply nth_error_upd_inv in Hj as [[_ E]|[_ Hj]]; [discriminate E|].
          destruct (Hann j Hj) as (Ht & Hwr & Huniq).
          split; [exact Ht|]. split; [exact Hwr|].
          intros j' Hj'. apply nth_error_upd_inv in Hj' as [[_ E]|[_ Hj']];
            [discriminate E|]. apply Huniq, Hj'.
        + intros j Hj. apply nth_error_upd_inv in Hj as [[-> _]|[_ Hj]].
          * split; [exists t; split; assumption|exact Hwp'].
          * destruct (Hpark j Hj) as [Ht _]. split; [exact Ht|exact Hwp'].
      - (* the reader takes the read lock *)
        destruct (step connect exec i (base g)) as [c|] eqn:H1; [|discriminate].
        inversion Hs; subst g'; clear Hs.
        destruct (writer_present_false g Hwp) as [Hwr Hnone].
        unfold waits_ok. cbn [base waits].
        split; [rewrite (step_length connect exec i (base g) H1); exact Hlen|]. split.
        + intros j Hj. exfalso. exact (Hnone j Hj).
        + intros j Hj. destruct (Hpark j Hj) as [_ Hp]. rewrite Hp in Hwp. discriminate. }
    destruct (head_is (@is_unlock) t) eqn:Hu.
    { (* the writer unlocks and releases the parked readers *)
      destruct (step connect exec i (base g)) as [c|] eqn:H1; [|discriminate].
      destruct (steps connect exec (parked_ids (waits g)) c) as [c'|] eqn:H2;
        [|discriminate].
      inversion Hs; subst g'; clear Hs.
      assert (Hwr : writer (mu (inst (shared (base g)))) = true).
      { destruct t as [h p]. unfold head_is in Hu. cbn [code] in Hu.
        destruct p as [r|X e k]; [discriminate Hu|].
        destruct e; try discriminate Hu.
        unfold step in H1. rewrite Hi in H1. cbn [code held handle] in H1.
        destruct (writer (mu (inst (shared (base g))))); [reflexivity|discriminate]. }
      assert (Hnone : forall j, nth_error (waits g) j <> Some Announced).
      { intros j Hj. destruct (Hann j Hj) as (_ & Hf & _). rewrite Hf in Hwr. discriminate. }
      assert (Hun : forall j w, nth_error (map unpark (waits g)) j = Some w -> w = Running).
      { intros j w Hj. rewrite nth_error_map in Hj.
        destruct (nth_error (waits g) j) as [[| |]|] eqn:E; cbn in Hj;
          inversion Hj; try reflexivity.
        exfalso. exact (Hnone j E). }
      unfold waits_ok. cbn [base waits]. split.
      - rewrite length_map, (steps_length connect exec _ c H2),
          (step_length connect exec i (base g) H1). exact Hlen.
      - split; intros j Hj; apply Hun in Hj; discriminate. }
    (* any other effect *)
    destruct (step connect exec i (base g)) as [c|] eqn:H1; [|discriminate].
    inversion Hs; subst g'; clear Hs.
    destruct (step_facts i (base g) H1 Hi) as [Hoth Hwr'].
    rewrite Hl, Hu in Hwr'. cbn in Hwr'.
    unfold waits_ok. cbn [base waits].
    split; [rewrite (step_length connect exec i (base g) H1); exact Hlen|]. split.
    + intros j Hj. destruct (Hann j Hj) as ((tj & Htj & Hhj) & Hwr & Huniq).
      assert (j <> i) by (intro E; subst j; rewrite Hw in Hj; discriminate).
      split; [exists tj; split; [rewrite Hoth by assumption; exact Htj|exact Hhj]|].
      split; [rewrite Hwr'; exact Hwr|exact Huniq].
    + intros j Hj. destruct (Hpark j Hj) as ((tj & Htj & Hhj) & Hp).
      assert (j <> i) by (intro E; subst j; rewrite Hw in Hj; discriminate).
      split; [exists tj; split; [rewrite Hoth by assumption; exact Htj|exact Hhj]|].
      unfold writer_present in *. cbn [base waits]. rewrite Hwr'. exact Hp.
  - (* the announced writer takes the lock *)
    destruct (readers (mu (inst (shared (base g))))) eqn:Hrd; [|discriminate].
    destruct (step connect exec i (base g)) as [c|] eqn:H1; [|discriminate].
    inversion Hs; subst g'; clear Hs.
    destruct (Hann i Hw) as ((ti & Hti & Hhi) & Hwr & Huniq).
    rewrite Hi in Hti. inversion Hti; subst ti.
    destruct (step_facts i (base g) H1 Hi) as [Hoth Hwr'].
    rewrite Hhi in Hwr'. cbn in Hwr'.
    unfold waits_ok. cbn [base waits]. split.
    + rewrite length_upd, (step_length connect exec i (base g) H1). exact Hlen.
    + split.
      * intros j Hj. apply nth_error_upd_inv in Hj as [[_ E]|[Hne Hj]]; [discriminate E|].
        exfalso. apply Hne. apply Huniq, Hj.
      * intros j Hj. apply nth_error_upd_inv in Hj as [[_ E]|[Hne Hj]]; [discriminate E|].
        destruct (Hpark j Hj) as ((tj & Htj & Hhj) & _).
        split; [exists tj; split; [rewrite Hoth by assumption; exact Htj|exact Hhj]|].
        unfold writer_present. cbn [base waits]. rewrite Hwr'. reflexivity.
Qed.

Lemma waits_ok_gsteps (sched : list nat) :
  forall g g' : GoConfig W,
    waits_ok g -> gsteps connect exec sched g = Some g' -> waits_ok g'.
Proof.
  induction sched as [|i sched IH]; intros g g' Hok Hs; cbn [gsteps] in Hs.
  - inversion Hs; subst. exact Hok.
  - destruct (gstep connect exec i g) as [g1|] eqn:H1; [|discriminate].
    eapply IH; [|exact Hs]. eapply waits_ok_gstep; eassumption.
Qed.
End GoProgress.

Section GoDeadlock.
Variable W : Type.
Variable connect : ConnectionPool -> string -> W -> (DB + error) * W.
Variable exec : DB -> string -> W -> option error * W.

(** A goroutine that holds the mutex is not waiting for it. *)
Lemma holder_running (g : GoConfig W) (i : nat) (t : thread) :
  Inv (base g) -> waits_ok g ->
  nth_error (threads (base g)) i = Some t ->
  held t <> Free ->
  nth_error (waits g) i = Some Running.
Proof.
  intros [Hd _] (Hlen & Hann & Hpark) Hi Hh.
  assert (Hdisc : disc (held t) (code t)).
  { eapply Forall_forall in Hd; [|eapply nth_error_In, Hi]. exact Hd. }
  destruct (nth_error (waits g) i) as [w|] eqn:Hw.
  - destruct w; [reflexivity| |]; exfalso; apply Hh.
    + destruct (Hann i Hw) as ((t' & Ht' & Hl) & _).
      rewrite Hi in Ht'. inversion Ht'; subst t'.
      destruct t as [h p]. unfold head_is in Hl. cbn [code held] in *.
      destruct p as [r|X e k]; [discriminate Hl|].
      destruct Hdisc as [He _]. destruct e; try discriminate Hl. exact He.
    + destruct (Hpark i Hw) as ((t' & Ht' & Hl) & _).
      rewrite Hi in Ht'. inversion Ht'; subst t'.
      destruct t as [h p]. unfold head_is in Hl. cbn [code held] in *.
      destruct p as [r|X e k]; [discriminate Hl|].
      destruct Hdisc as [He _]. destruct e; try discriminate Hl. exact He.
  - exfalso. apply nth_error_None in Hw.
    assert (i < List.length (threads (base g)))
      by (apply nth_error_Some; rewrite Hi; discriminate).
    lia.
Qed.

(** A goroutine that is not waiting and is at an effect other than a
    [Lock], [RLock] or [Unlock] moves as in [step]. *)
Lemma gstep_plain (g : GoConfig W) (i : nat) (h : mode) (X : Type) (e : event X)
    (k : X -> prog (list result)) :
  nth_error (threads (base g)) i = Some {| held := h; code := Vis e k |} ->
  nth_error (waits g) i = Some Running ->
  is_lock e = false -> is_rlock e = false -> is_unlock e = false ->
  (exists x m', handle connect exec e (shared (base g)) = Some (x, m')) ->
  exists g', gstep connect exec i g = Some g'.
Proof.
  intros Hi Hw Hl Hr Hu Hh.
  destruct (step_enabled connect exec i (base g) Hi Hh) as (c & Hc).
  unfold gstep. rewrite Hi, Hw. unfold head_is. cbn [code].
  rewrite Hl, Hr, Hu, Hc. eexists. reflexivity.
Qed.

(** A goroutine that holds the read lock can go on. *)
Lemma reader_moves (g : GoConfig W) :
  Inv (base g) -> waits_ok g ->
  writer (mu (inst (shared (base g)))) = false ->
  1 <= holders HoldR (threads (base g)) ->
  exists i g', gstep connect exec i g = Some g'.
Proof.
  intros Hinv Hok Hwr Hpos. pose proof Hinv as [Hd Hm].
  destruct (holders_ex HoldR (threads (base g)) Hpos) as (i & [h p] & Hi & Hh).
  cbn [held] in Hh. subst h.
  assert (Hrun : nth_error (waits g) i = Some Running)
    by (eapply holder_running; try eassumption; discriminate).
  assert (Hdisc : disc HoldR p).
  { eapply Forall_forall in Hd; [|eapply nth_error_In, Hi]. exact Hd. }
  destruct p as [r|X e k]; [discriminate Hdisc|]. destruct Hdisc as [He _].
  exists i. destruct e; try discriminate He;
    apply (gstep_plain g i Hi Hrun); try reflexivity; cbn [handle].
  - unfold mutex_agrees in Hm. rewrite Hwr in Hm.
    destruct Hm as [(E & _)|(_ & _ & Hr)]; [discriminate E|].
    destruct (readers (mu (inst (shared (base g))))); [lia|].
    eexists _, _. reflexivity.
  - eexists _, _. reflexivity.
Qed.

Lemma go_progress (g : GoConfig W) :
  Inv (base g) -> waits_ok g ->
  forallb returned (threads (base g)) = true \/
  exists i g', gstep connect exec i g = Some g'.
Proof.
  intros Hinv Hok. pose proof Hinv as [Hd Hm]. pose proof Hok as (Hlen & Hann & Hpark).
  assert (Hdisc : forall i t, nth_error (threads (base g)) i = Some t ->
                              disc (held t) (code t)).
  { intros i t Hi. eapply Forall_forall in Hd; [|eapply nth_error_In, Hi]. exact Hd. }
  destruct (writer (mu (inst (shared (base g))))) eqn:Hwr.
  - (* a writer holds the mutex: it writes the flag or unlocks *)
    right. unfold mutex_agrees in Hm. rewrite Hwr in Hm.
    destruct Hm as [(_ & HW & _)|(E & _)]; [|discriminate E].
    destruct (holders_ex HoldW (threads (base g)) ltac:(lia)) as (i & [h p] & Hi & Hh).
    cbn [held] in Hh. subst h.
    assert (Hrun : nth_error (waits g) i = Some Running)
      by (eapply holder_running; try eassumption; discriminate).
    pose proof (Hdisc i _ Hi) as Hp. cbn [held code] in Hp.
    destruct p as [r|X e k]; [discriminate Hp|]. destruct Hp as [He _].
    exists i. destruct e; try discriminate He.
    + (* Unlock *)
      destruct (step_enabled connect exec i (base g) Hi) as (c & Hc).
      { cbn [handle]. rewrite Hwr. eexists _, _. reflexivity. }
      destruct (step_facts connect exec i (base g) Hc Hi) as [Hoth Hwr'].
      unfold head_is in Hwr'. cbn in Hwr'.
      destruct (@release_ok W connect exec (parked_ids (waits g)) c
                  (parked_ids_NoDup (waits g)) Hwr') as (c' & Hc').
      { intros j Hj. apply parked_ids_spec in Hj.
        destruct (Hpark j Hj) as ((tj & Htj & Hhj) & _).
        exists tj. split; [|exact Hhj]. rewrite Hoth; [exact Htj|].
        intro E. subst j. rewrite Hrun in Hj. discriminate. }
      unfold gstep. rewrite Hi, Hrun. unfold head_is. cbn [code is_lock is_rlock is_unlock].
      rewrite Hc, Hc'. eexists. reflexivity.
    + (* the write of the flag *)
      apply (gstep_plain g i Hi Hrun); try reflexivity.
      cbn [handle]. eexists _, _. reflexivity.
  - destruct (existsb (wait_eqb Announced) (waits g)) eqn:Ha.
    + (* a writer has announced itself *)
      right. apply announced_exists in Ha as (a & Ha).
      destruct (Hann a Ha) as (([h p] & Hta & Hl) & _ & _).
      unfold head_is in Hl. cbn [code] in Hl.
      destruct p as [r|X e k]; [discriminate Hl|]. destruct e; try discriminate Hl.
      destruct (readers (mu (inst (shared (base g))))) as [|n] eqn:Hrd.
      * exists a. unfold gstep. rewrite Hta, Ha, Hrd.
        unfold step. rewrite Hta. cbn [code held handle]. rewrite Hwr, Hrd.
        eexists. reflexivity.
      * apply reader_moves; try assumption.
        unfold mutex_agrees in Hm. rewrite Hwr, Hrd in Hm.
        destruct Hm as [(E & _)|(_ & _ & Hr)]; [discriminate E|]. lia.
    + (* no writer around *)
      assert (Hwp : writer_present g = false)
        by (unfold writer_present; rewrite Hwr, Ha; reflexivity).
      destruct (holders HoldR (threads (base g))) as [|n] eqn:HR;
        [|right; apply reader_moves; try assumption; lia].
      destruct (forallb returned (threads (base g))) eqn:Hret; [left; reflexivity|right].
      destruct (not_all_returned _ Hret) as (i & [h p] & Hi & Hp).
      unfold returned in Hp. cbn [code] in Hp.
      destruct p as [r|X e k]; [discriminate Hp|].
      pose proof (Hdisc i _ Hi) as Hdi. cbn [held code] in Hdi. destruct Hdi as [He _].
      assert (Hrun : nth_error (waits g) i = Some Running).
      { destruct (nth_error (waits g) i) as [[| |]|] eqn:Hw.
        - reflexivity.
        - exfalso. apply (proj2 (writer_present_false g Hwp) i Hw).
        - exfalso. destruct (Hpark i Hw) as [_ E]. rewrite E in Hwp. discriminate.
        - exfalso. apply nth_error_None in Hw.
          assert (i < List.length (threads (base g)))
            by (apply nth_error_Some; rewrite Hi; discriminate).
          lia. }
      unfold mutex_agrees in Hm. rewrite Hwr in Hm.
      destruct Hm as [(E & _)|(_ & HW & Hrd)]; [discriminate E|].
      assert (h = Free).
      { destruct h; [reflexivity| |]; exfalso.
        - exact (holders_zero (threads (base g)) HR i Hi eq_refl).
        - exact (holders_zero (threads (base g)) HW i Hi eq_refl). }
      subst h. exists i. destruct e; try discriminate He.
      * apply (gstep_plain g i Hi Hrun); try reflexivity. cbn [handle].
        destruct (connect (pool (inst (shared (base g)))) dbname (world (shared (base g)))).
        eexists _, _. reflexivity.
      * apply (gstep_plain g i Hi Hrun); try reflexivity. cbn [handle].
        destruct (exec db query (world (shared (base g)))).
        eexists _, _. reflexivity.
      * apply (gstep_plain g i Hi Hrun); try reflexivity. cbn [handle].
        eexists _, _. reflexivity.
      * unfold gstep. rewrite Hi, Hrun. unfold head_is.
        cbn [code is_lock is_rlock is_unlock]. rewrite Hwp.
        unfold step. rewrite Hi. cbn [code held handle]. rewrite Hwr.
        eexists. reflexivity.
      * unfold gstep. rewrite Hi, Hrun. unfold head_is.
        cbn [code is_lock is_rlock is_unlock]. rewrite Hwp.
        eexists. reflexivity.
Qed.

(** No deadlock, with the mutex behaving as [sync.RWMutex] does (a writer
    waiting in [Lock] keeps new readers out; [Unlock] lets the parked
    readers in).  In every state goroutines calling the three methods can
    reach, either all of them have returned or one of them can move. *)
Theorem no_deadlock (m0 : Machine W) (callss : list (list call))
    (sched : list nat) (g : GoConfig W) :
  mu_free (inst m0) ->
  gsteps connect exec sched (ginit m0 callss) = Some g ->
  forallb returned (threads (base g)) = true \/
  exists i g', gstep connect exec i g = Some g'.
Proof.
  intros Hf Hs. apply go_progress.
  - destruct (gsteps_sim connect exec sched _ Hs) as (sched' & Hs').
    eapply Inv_steps; [|exact Hs']. apply Inv_init. exact Hf.
  - eapply waits_ok_gsteps; [|exact Hs]. apply waits_ok_init.
Qed.
End GoDeadlock.

(** ** Concrete runs of the further properties *)

Lemma returned_error_is_last_failure_witness :
  mu_free (inst demo_never_ready) /\
  (exists r m' t,
      srun Pause demo_never_ready = Some (r, m') /\
      trace m' = trace demo_never_ready ++ t /\
      error_has_cause t r) /\
  (exists r m' t,
      srun Resume demo_never_ready = Some (r, m') /\
      trace m' = trace demo_never_ready ++ t /\
      error_has_cause t r).
Proof.
  assert (H : mu_free (inst demo_never_ready)) by (split; reflexivity).
  split; [exact H|].
  exact (@returned_error_is_last_failure Script script_connect script_exec
           demo_never_ready H).
Defined.

Lemma one_connection_per_call_witness :
  mu_free (inst demo_machine) /\
  (exists r m' t,
      srun Pause demo_machine = Some (r, m') /\
      trace m' = trace demo_machine ++ t /\
      one_connection "PAUSE" t) /\
  (exists r m' t,
      srun Resume demo_machine = Some (r, m') /\
      trace m' = trace demo_machine ++ t /\
      one_connection "RESUME" t).
Proof.
  assert (H : mu_free (inst demo_machine)) by (split; reflexivity).
  split; [exact H|].
  exact (@one_connection_per_call Script script_connect script_exec demo_machine H).
Defined.

Lemma instance_after_calls_witness :
  mu_free (inst demo_machine) /\
  exists h m',
    run_calls script_connect script_exec demo_calls demo_machine = Some (h, m') /\
    map fst h = demo_calls /\
    inst m' = set_paused (inst demo_machine)
                (flag_after (paused (inst demo_machine)) h).
Proof.
  assert (H : mu_free (inst demo_machine)) by (split; reflexivity).
  split; [exact H|].
  exact (@instance_after_calls Script script_connect script_exec
           demo_machine demo_calls H).
Defined.

Lemma mutex_free_when_all_returned_witness :
  mu_free (inst (shared demo_start)) /\
  steps script_connect script_exec demo_schedule demo_start = Some demo_done /\
  forallb returned (threads demo_done) = true /\
  mu_free (inst (shared demo_done)).
Proof.
  assert (H : mu_free (inst (shared demo_start))) by (split; reflexivity).
  assert (Hs : steps script_connect script_exec demo_schedule demo_start
               = Some demo_done) by reflexivity.
  assert (Hr : forallb returned (threads demo_done) = true) by reflexivity.
  split; [exact H|]. split; [exact Hs|]. split; [exact Hr|].
  exact (@mutex_free_when_all_returned Script script_connect script_exec
           (shared demo_start) [[CallPause]; [CallPaused]] demo_schedule
           demo_done H Hs Hr).
Defined.

Lemma flag_stable_under_read_lock_witness :
  mu_free (inst (shared demo_start)) /\
  steps script_connect script_exec [0; 0; 0; 1] demo_start = Some demo_reading /\
  option_map held (nth_error (threads demo_reading) 1) = Some HoldR /\
  step script_connect script_exec 0 demo_reading = Some demo_reading_next /\
  paused (inst (shared demo_reading_next)) = paused (inst (shared demo_reading)).
Proof.
  assert (H : mu_free (inst (shared demo_start))) by (split; reflexivity).
  assert (Hs : steps script_connect script_exec [0; 0; 0; 1] demo_start
               = Some demo_reading) by reflexivity.
  assert (Hn : step script_connect script_exec 0 demo_reading
               = Some demo_reading_next) by reflexivity.
  split; [exact H|]. split; [exact Hs|]. split; [reflexivity|]. split; [exact Hn|].
  destruct (nth_error (threads demo_reading) 1) as [t|] eqn:Ht; [|discriminate Ht].
  apply (@flag_stable_under_read_lock Script script_connect script_exec
           (shared demo_start) [[CallPause]; [CallPaused]] [0; 0; 0; 1]
           demo_reading demo_reading_next 1 0 t H Hs Ht); [|exact Hn].
  inversion Ht. reflexivity.
Defined.

Lemma schedule_bounded_witness :
  steps script_connect script_exec demo_schedule demo_start = Some demo_done /\
  List.length demo_schedule <= call_bound * 2.
Proof.
  assert (Hs : steps script_connect script_exec demo_schedule demo_start
               = Some demo_done) by reflexivity.
  split; [exact Hs|].
  exact (@schedule_bounded Script script_connect script_exec (shared demo_start)
           [[CallPause]; [CallPaused]] demo_schedule demo_done Hs).
Defined.

Lemma flag_writes_follow_accepted_commands_witness :
  steps script_connect script_exec demo_schedule demo_start = Some demo_done /\
  exists t,
    trace (shared demo_done) = trace (shared demo_start) ++ t /\
    stores_follow_accepts t /\
    (paused (inst (shared demo_done)) <> paused (inst (shared demo_start)) ->
     accepted (paused (inst (shared demo_done))) t).
Proof.
  assert (Hs : steps script_connect script_exec demo_schedule demo_start
               = Some demo_done) by reflexivity.
  split; [exact Hs|].
  exact (@flag_writes_follow_accepted_commands Script script_connect script_exec
           (shared demo_start) [[CallPause]; [CallPaused]] demo_schedule
           demo_done Hs).
Defined.

Lemma Pause_first_attempt_success_witness :
  mu_free (inst demo_paused) /\
  srun Pause (script_machine true (mkScript [inl 7] [None])) =
  Some (None,
        {| inst := inst demo_paused; world := mkScript [] [];
           trace := Obs (PoolConnection "pgbouncer") (inl 7) ::
                      Obs (DbExec 7 "PAUSE") None :: flag_update true |}).
Proof.
  assert (H : mu_free (inst demo_paused)) by (split; reflexivity).
  split; [exact H|].
  exact (@Pause_first_attempt_success Script script_connect script_exec
           (script_machine true (mkScript [inl 7] [None])) 7
           (mkScript [] [None]) (mkScript [] []) H eq_refl eq_refl).
Defined.

(** A pgbouncer that rejects every command. *)
Lemma Pause_gives_up_after_budget_witness :
  (forall w0 : unit, fst (Some not_ready, w0) <> None) /\
  exists e m' t,
    run (fun _ _ (w0 : unit) => (inl 7, w0)) (fun _ _ (w0 : unit) => (Some not_ready, w0))
        Pause {| inst := inst demo_paused; world := tt; trace := [] |}
      = Some (Some e, m') /\
    trace m' = Obs (PoolConnection "pgbouncer") (inl 7) :: t /\
    List.length (exec_calls t) = budget /\
    inst m' = inst demo_paused.
Proof.
  assert (H : mu_free (inst demo_paused)) by (split; reflexivity).
  assert (Hno : forall w0 : unit, fst (Some not_ready, w0) <> None)
    by (intros w0 E; discriminate E).
  split; [exact Hno|].
  exact (@Pause_gives_up_after_budget unit
           (fun _ _ w0 => (inl 7, w0)) (fun _ _ w0 => (Some not_ready, w0))
           {| inst := inst demo_paused; world := tt; trace := [] |} 7 tt
           H eq_refl Hno).
Defined.

(** The second reader is parked behind the waiting writer, which itself
    waits for the first reader; the first reader can go on, and in the end
    all return. *)
Example reader_parks_behind_waiting_writer :
  waits demo_go_waiting = [Running; Announced; Parked] /\
  gstep script_connect script_exec 2 demo_go_waiting = None /\
  gstep script_connect script_exec 1 demo_go_waiting = None /\
  option_map (fun g => map code (threads (base g)))
    (gsteps script_connect script_exec [0; 0; 1; 1; 1; 2; 2] demo_go_waiting)
    = Some [Ret [RBool false]; Ret [RErr None]; Ret [RBool true]].
Proof. repeat split. Qed.

Lemma no_deadlock_witness :
  mu_free (inst (shared (base demo_go_start))) /\
  gsteps script_connect script_exec [0; 1; 1; 1; 2] demo_go_start
    = Some demo_go_waiting /\
  (forallb returned (threads (base demo_go_waiting)) = true \/
   exists i g', gstep script_connect script_exec i demo_go_waiting = Some g').
Proof.
  assert (H : mu_free (inst (shared (base demo_go_start)))) by (split; reflexivity).
  assert (Hs : gsteps script_connect script_exec [0; 1; 1; 1; 2] demo_go_start
               = Some demo_go_waiting) by reflexivity.
  split; [exact H|]. split; [exact Hs|].
  exact (@no_deadlock Script script_connect script_exec
           (script_machine false (mkScript [inl 7] [None]))
           [[CallPaused]; [CallPause]; [CallPaused]] [0; 1; 1; 1; 2]
           demo_go_waiting H Hs).
Defined.
